(** * Vue Notes collaboration server: rooms, broadcast relay and sessions

    A shallow embedding of [server/main.py] and the proofs of its
    specification.

    Conventions of the model.
    - A [WebSocket] object and a [DocumentRoom] object are Python objects
      compared and hashed by identity: a connection is its identity
      ([conn]), a room lives in a store of objects ([heap]) and is referred
      to by its address ([addr]).  The global dict [rooms] maps room ids to
      addresses, and the local variable [room] of a running handler holds an
      address too, so that two references to one room alias.
    - What the transport and the clock answer is an input: the outcome of
      every [send_bytes], what [receive_bytes] yields, the value of
      [datetime.now()].
    - Everything a handler does to the outside is recorded in a trace of
      [effect]s, in program order.
    - Exceptions are the instances of Python's [Exception]; task
      cancellation is not modelled.
    - One handler runs from one [await websocket.receive_bytes()] to the
      next without another handler running in between. *)

From Stdlib Require Import Strings.Byte.
From stdpp Require Import gmap strings list fin_maps fin_sets.

#[local] Set Warnings "-clear-no-such-hyp".

(** ** Values *)

(** Identity of a [WebSocket] object. *)
Definition conn := nat.
(** Identity of a [DocumentRoom] object. *)
Definition addr := nat.
(** A reading of [datetime.now()]. *)
Definition time := nat.
(** [bytes] and [bytearray] contents. *)
Abbreviation bytes := (list Byte.byte).

(** The exceptions the code names or can meet, all instances of
    [Exception]. *)
Inductive exn :=
  | WebSocketDisconnect
  | KeyError
  | RuntimeError
  | OSError.

(** Result of a call: it returns a value or raises. *)
Inductive result (A : Type) :=
  | Ok (a : A)
  | Raise (e : exn).
Arguments Ok {A} a.
Arguments Raise {A} e.

(** The messages handed to [logger]. *)
Inductive log_msg :=
  | ErrorBroadcasting (e : exn)
  | CreatedRoom (room_id : string)
  | ClientConnected (room_id : string) (total : nat)
  | ClientDisconnected (room_id : string)
  | WebSocketError (room_id : string) (e : exn)
  | RoomEmpty (room_id : string).

(** What a handler does to the outside world. *)
Inductive effect :=
  | SendBytes (target : conn) (payload : bytes) (outcome : option exn)
      (* [await target.send_bytes(payload)]; [Some e] when it raised [e] *)
  | Extend (room : addr) (payload : bytes)
      (* [room.state.extend(payload)] *)
  | Log (m : log_msg).

(** ** [class DocumentRoom] *)

Record DocumentRoom := mkDocumentRoom {
  room_id : string;
  connections : gset conn;
  state : bytes;
  last_updated : time
}.

(** [DocumentRoom.__init__] *)
Definition DocumentRoom_init (rid : string) (now : time) : DocumentRoom :=
  {| room_id := rid; connections := ∅; state := []; last_updated := now |}.

(** Assignment to [self.connections]. *)
Definition set_connections (cs : gset conn) (self : DocumentRoom) : DocumentRoom :=
  {| room_id := room_id self; connections := cs;
     state := state self; last_updated := last_updated self |}.

(** [await connection.send_bytes(message)] as seen by the caller; [tx]
    tells, for each connection, whether the transport lets the call return
    ([None]) or makes it raise ([Some e]). *)
Definition send_bytes (tx : conn → option exn) (connection : conn) : result unit :=
  match tx connection with
  | None => Ok ()
  | Some e => Raise e
  end.

(** The [for] loop of [broadcast] over the connections still to visit, with
    the local set [disconnected] as accumulator. *)
Fixpoint broadcast_loop (tx : conn → option exn) (message : bytes)
    (exclude : option conn) (todo : list conn) (disconnected : gset conn)
    : gset conn * list effect :=
  match todo with
  | [] => (disconnected, [])
  | connection :: rest =>
      if decide (Some connection ≠ exclude) then
        match send_bytes tx connection with
        | Ok _ =>
            let '(d, t) := broadcast_loop tx message exclude rest disconnected in
            (d, SendBytes connection message None :: t)
        | Raise e =>
            (* except Exception as e *)
            let '(d, t) :=
              broadcast_loop tx message exclude rest ({[connection]} ∪ disconnected) in
            (d, SendBytes connection message (Some e)
                  :: Log (ErrorBroadcasting e) :: t)
        end
      else broadcast_loop tx message exclude rest disconnected
  end.

(** [DocumentRoom.broadcast]: the room after the call, what the call
    returns, and its effects.  The set is visited in the order of
    [elements]; no statement below depends on that order.  Whatever a send
    raises is caught inside the loop and nothing else in the body can
    raise, so the call always returns; the last statement is
    [self.connections -= disconnected]. *)
Definition broadcast (tx : conn → option exn) (self : DocumentRoom)
    (message : bytes) (exclude : option conn)
    : DocumentRoom * result unit * list effect :=
  let '(disconnected, t) :=
    broadcast_loop tx message exclude (elements (connections self)) ∅ in
  (set_connections (connections self ∖ disconnected) self, Ok (), t).

(** ** The store of objects and the handler monad *)

Record Store := mkStore {
  heap : gmap addr DocumentRoom;   (* the live [DocumentRoom] objects *)
  rooms : gmap string addr         (* the global dict [rooms] *)
}.

(** A piece of handler code: from a store, a result, the store it leaves
    (mutations made before a [raise] stay), and its effects. *)
Definition M (A : Type) : Type := Store → result A * Store * list effect.

Definition ret {A} (a : A) : M A := λ σ, (Ok a, σ, []).

Definition bind {A B} (m : M A) (k : A → M B) : M B := λ σ,
  match m σ with
  | (Ok a, σ1, t1) => let '(r, σ2, t2) := k a σ1 in (r, σ2, t1 ++ t2)
  | (Raise e, σ1, t1) => (Raise e, σ1, t1)
  end.

Definition raise {A} (e : exn) : M A := λ σ, (Raise e, σ, []).

Definition emit (ev : effect) : M unit := λ σ, (Ok (), σ, [ev]).

Declare Scope handler_scope.
Delimit Scope handler_scope with handler.
Notation "x ← m ; k" := (bind m (λ x, k))
  (at level 20, m at level 100, k at level 200, only parsing) : handler_scope.
Notation "m ;; k" := (bind m (λ _, k))
  (at level 100, k at level 200, right associativity, only parsing) : handler_scope.
Local Open Scope handler_scope.

(** [try: body / except Exception as e: handler e / finally: final].  An
    exception of [final] replaces whatever was pending. *)
Definition try_except_finally {A} (body : M A) (handler : exn → M A)
    (final : M unit) : M A := λ σ,
  let '(r1, σ1, t1) :=
    match body σ with
    | (Ok a, σ1, t1) => (Ok a, σ1, t1)
    | (Raise e, σ1, t1) => let '(r, σ2, t2) := handler e σ1 in (r, σ2, t1 ++ t2)
    end in
  match final σ1 with
  | (Ok _, σ2, t2) => (r1, σ2, t1 ++ t2)
  | (Raise e, σ2, t2) => (Raise e, σ2, t1 ++ t2)
  end.

Global Instance DocumentRoom_inhabited : Inhabited DocumentRoom :=
  populate (DocumentRoom_init "" 0).

(** Reading the object behind a reference. *)
Definition deref (a : addr) : M DocumentRoom := λ σ, (Ok (heap σ !!! a), σ, []).

(** Mutating the object behind a reference. *)
Definition update (a : addr) (f : DocumentRoom → DocumentRoom) : M unit := λ σ,
  (Ok (), {| heap := <[a := f (heap σ !!! a)]> (heap σ); rooms := rooms σ |}, []).

(** Creating an object: it gets an address no object has. *)
Definition new (r : DocumentRoom) : M addr := λ σ,
  let a := fresh (dom (heap σ)) in
  (Ok a, {| heap := <[a := r]> (heap σ); rooms := rooms σ |}, []).

(** [room_id in rooms] *)
Definition rooms_contains (rid : string) : M bool := λ σ,
  (Ok (bool_decide (is_Some (rooms σ !! rid))), σ, []).

(** [rooms[room_id] = room] *)
Definition rooms_setitem (rid : string) (a : addr) : M unit := λ σ,
  (Ok (), {| heap := heap σ; rooms := <[rid := a]> (rooms σ) |}, []).

(** [rooms[room_id]], a [KeyError] when the key is absent. *)
Definition rooms_getitem (rid : string) : M addr := λ σ,
  match rooms σ !! rid with
  | Some a => (Ok a, σ, [])
  | None => (Raise KeyError, σ, [])
  end.

(** [del rooms[room_id]], a [KeyError] when the key is absent. *)
Definition rooms_delitem (rid : string) : M unit := λ σ,
  match rooms σ !! rid with
  | Some _ => (Ok (), {| heap := heap σ; rooms := delete rid (rooms σ) |}, [])
  | None => (Raise KeyError, σ, [])
  end.

(** [get_or_create_room] *)
Definition get_or_create_room (rid : string) (now : time) : M addr :=
  present ← rooms_contains rid;
  (if negb present then
     a ← new (DocumentRoom_init rid now);
     rooms_setitem rid a;;
     emit (Log (CreatedRoom rid))
   else ret ());;
  rooms_getitem rid.

(** [await room.broadcast(message, exclude)] on the object behind [room]. *)
Definition room_broadcast (tx : conn → option exn) (room : addr)
    (message : bytes) (exclude : option conn) : M unit := λ σ,
  let '(r', res, t) := broadcast tx (heap σ !!! room) message exclude in
  (res, {| heap := <[room := r']> (heap σ); rooms := rooms σ |}, t).

(** ** [websocket_sync] *)

(** [room.connections.add(websocket)] *)
Definition connections_add (websocket : conn) (r : DocumentRoom) : DocumentRoom :=
  set_connections ({[websocket]} ∪ connections r) r.

(** [room.state.extend(data)] *)
Definition state_extend (data : bytes) (r : DocumentRoom) : DocumentRoom :=
  {| room_id := room_id r; connections := connections r;
     state := state r ++ data; last_updated := last_updated r |}.

(** [room.last_updated = now] *)
Definition set_last_updated (now : time) (r : DocumentRoom) : DocumentRoom :=
  {| room_id := room_id r; connections := connections r;
     state := state r; last_updated := now |}.

(** Lines 110-113: from the accepted connection to the log line. *)
Definition ws_join (websocket : conn) (rid : string) (now : time) : M addr :=
  room ← get_or_create_room rid now;
  update room (connections_add websocket);;
  r ← deref room;
  emit (Log (ClientConnected rid (size (connections r))));;
  ret room.

(** Lines 117-118: the current state goes to the new client if there is
    any; an empty [bytearray] is false. *)
Definition ws_replay (tx : conn → option exn) (websocket : conn) (room : addr)
    : M unit :=
  r ← deref room;
  if bool_decide (state r ≠ []) then
    match send_bytes tx websocket with
    | Ok _ => emit (SendBytes websocket (state r) None)
    | Raise e => emit (SendBytes websocket (state r) (Some e));; raise e
    end
  else ret ().

(** Lines 126-130: one turn of the loop once [receive_bytes] has returned
    [data]. *)
Definition ws_relay (tx : conn → option exn) (websocket : conn) (room : addr)
    (data : bytes) (now : time) : M unit :=
  update room (state_extend data);;
  emit (Extend room data);;
  update room (set_last_updated now);;
  room_broadcast tx room data (Some websocket).

(** Lines 132-135: the two [except] clauses. *)
Definition ws_except (rid : string) (e : exn) : M unit :=
  match e with
  | WebSocketDisconnect => emit (Log (ClientDisconnected rid))
  | _ => emit (Log (WebSocketError rid e))
  end.

(** [room.connections.remove(websocket)]: [set.remove] raises [KeyError]
    when the element is absent. *)
Definition connections_remove (websocket : conn) (room : addr) : M unit :=
  r ← deref room;
  if decide (websocket ∈ connections r) then
    update room (λ r, set_connections (connections r ∖ {[websocket]}) r)
  else raise KeyError.

(** Lines 137-143: the [finally] clause. *)
Definition ws_finally (websocket : conn) (rid : string) (room : addr) : M unit :=
  connections_remove websocket room;;
  r ← deref room;
  if decide (connections r = ∅) then
    emit (Log (RoomEmpty rid));;
    rooms_delitem rid
  else ret ().

(** Where a handler stands between two inputs. *)
Inductive frame :=
  | Receiving (rid : string) (room : addr)
      (* suspended in [await websocket.receive_bytes()], with its locals *)
  | Finished (r : result unit).
      (* the coroutine returned, or an exception left it *)

(** The [try] statement, entered for a stretch of its body that runs up to
    the next [receive_bytes]: if the stretch raises, the matching [except]
    clause and then the [finally] clause run and the handler is over;
    otherwise the handler waits for the next message. *)
Definition ws_try (websocket : conn) (rid : string) (room : addr)
    (stretch : M unit) : Store → frame * Store * list effect := λ σ,
  match stretch σ with
  | (Ok _, σ1, t1) => (Receiving rid room, σ1, t1)
  | (Raise e, σ1, t1) =>
      let '(r, σ2, t2) :=
        try_except_finally (raise e) (ws_except rid)
          (ws_finally websocket rid room) σ1 in
      (Finished r, σ2, t1 ++ t2)
  end.

(** [websocket_sync] from its call to its first [receive_bytes].  [accept]
    is the outcome of [await websocket.accept()], which is outside the
    [try]. *)
Definition websocket_sync_start (websocket : conn) (rid : string) (now : time)
    (accept : option exn) (tx : conn → option exn)
    : Store → frame * Store * list effect := λ σ,
  match accept with
  | Some e => (Finished (Raise e), σ, [])
  | None =>
      match ws_join websocket rid now σ with
      | (Ok room, σ1, t1) =>
          let '(f, σ2, t2) :=
            ws_try websocket rid room (ws_replay tx websocket room) σ1 in
          (f, σ2, t1 ++ t2)
      | (Raise e, σ1, t1) => (Finished (Raise e), σ1, t1)
      end
  end.

(** [websocket_sync] from one [receive_bytes] to the next; [received] is
    what [receive_bytes] does, the message it returns or the exception it
    raises. *)
Definition websocket_sync_resume (websocket : conn) (rid : string) (room : addr)
    (received : result bytes) (now : time) (tx : conn → option exn)
    : Store → frame * Store * list effect :=
  ws_try websocket rid room
    match received with
    | Ok data => ws_relay tx websocket room data now
    | Raise e => raise e
    end.

(** ** The server: a store and the handlers running on it *)

Record World := mkWorld {
  store : Store;
  sessions : gmap conn frame
}.

Definition initial : World :=
  {| store := {| heap := ∅; rooms := ∅ |}; sessions := ∅ |}.

(** What the outside does to the server. *)
Inductive input :=
  | Connect (websocket : conn) (rid : string) (now : time)
      (accept : option exn) (tx : conn → option exn)
      (* a client opens /api/sync/[rid]; [websocket] is the new object *)
  | Receive (websocket : conn) (received : result bytes) (now : time)
      (tx : conn → option exn).
      (* the pending [receive_bytes] of [websocket]'s handler completes *)

(** One input.  A [Connect] for an object that already has a handler and a
    [Receive] for a handler that is not waiting do not happen: they leave
    the server as it is. *)
Definition step (i : input) (w : World) : World * list effect :=
  match i with
  | Connect websocket rid now accept tx =>
      match sessions w !! websocket with
      | Some _ => (w, [])
      | None =>
          let '(f, σ, t) :=
            websocket_sync_start websocket rid now accept tx (store w) in
          ({| store := σ; sessions := <[websocket := f]> (sessions w) |}, t)
      end
  | Receive websocket received now tx =>
      match sessions w !! websocket with
      | Some (Receiving rid room) =>
          let '(f, σ, t) :=
            websocket_sync_resume websocket rid room received now tx (store w) in
          ({| store := σ; sessions := <[websocket := f]> (sessions w) |}, t)
      | _ => (w, [])
      end
  end.

(** A sequence of inputs, from the left. *)
Fixpoint run (inputs : list input) (w : World) : World * list effect :=
  match inputs with
  | [] => (w, [])
  | i :: rest =>
      let '(w1, t1) := step i w in
      let '(w2, t2) := run rest w1 in
      (w2, t1 ++ t2)
  end.

(** ** Reading a trace *)

(** The [send_bytes] calls on [c], oldest first: payload and outcome. *)
Fixpoint sends_to (c : conn) (t : list effect) : list (bytes * option exn) :=
  match t with
  | [] => []
  | SendBytes target payload outcome :: t' =>
      if decide (target = c) then (payload, outcome) :: sends_to c t'
      else sends_to c t'
  | _ :: t' => sends_to c t'
  end.

(** The updates a room object accepted, oldest first. *)
Fixpoint accepted (a : addr) (t : list effect) : list bytes :=
  match t with
  | [] => []
  | Extend room payload :: t' =>
      if decide (room = a) then payload :: accepted a t' else accepted a t'
  | _ :: t' => accepted a t'
  end.

(** ** Relations between the store before and after a piece of code *)

(** A piece of code keeps [R] when [R] relates every store, the effects of
    the code from it and the store the code leaves. *)
Definition keeps (R : Store → list effect → Store → Prop) {X}
    (m : Store → X * Store * list effect) : Prop :=
  ∀ σ, R σ (m σ).2 (m σ).1.2.

(** Every room object stays and keeps its id, and its state log changes
    only by what the trace records as accepted, appended in order. *)
Definition grows (σ : Store) (t : list effect) (σ' : Store) : Prop :=
  dom (heap σ) ⊆ dom (heap σ') ∧
  (∀ a, state (heap σ' !!! a) = state (heap σ !!! a) ++ mjoin (accepted a t)) ∧
  (∀ a, a ∈ dom (heap σ) → room_id (heap σ' !!! a) = room_id (heap σ !!! a)).

(** Members stay within [S], and nobody outside [S] is sent anything. *)
Definition confined (S : gset conn) (σ : Store) (t : list effect) (σ' : Store) : Prop :=
  (∀ a, connections (heap σ !!! a) ⊆ S) →
  (∀ a, connections (heap σ' !!! a) ⊆ S) ∧
  (∀ c, c ∉ S → sends_to c t = []).

(** The members of every room and the recipients of every send so far have
    a handler, running or finished. *)
Definition known (w : World) (t : list effect) : Prop :=
  (∀ a, connections (heap (store w) !!! a) ⊆ dom (sessions w)) ∧
  (∀ c, c ∉ dom (sessions w) → sends_to c t = []).

(** The registry agrees with the room objects: a room that has a member is
    registered under its id, and what is registered under an id is a room
    object of that id. *)
Definition reg (σ : Store) : Prop :=
  (∀ a, connections (heap σ !!! a) ≠ ∅ →
        rooms σ !! room_id (heap σ !!! a) = Some a) ∧
  (∀ rid a, rooms σ !! rid = Some a →
            a ∈ dom (heap σ) ∧ room_id (heap σ !!! a) = rid).

(** The same for a server, whose waiting handlers moreover hold a room
    object of the id they were called with. *)
Definition registered (w : World) : Prop :=
  reg (store w) ∧
  (∀ ws rid room, sessions w !! ws = Some (Receiving rid room) →
                  room ∈ dom (heap (store w)) ∧
                  room_id (heap (store w) !!! room) = rid).

(** The registry is untouched, room objects stay and keep their ids, and no
    room gains a member. *)
Definition shrinks (σ : Store) (t : list effect) (σ' : Store) : Prop :=
  rooms σ' = rooms σ ∧
  dom (heap σ) ⊆ dom (heap σ') ∧
  (∀ a, room_id (heap σ' !!! a) = room_id (heap σ !!! a)) ∧
  (∀ a, connections (heap σ' !!! a) ⊆ connections (heap σ !!! a)).

(** ** Document persistence *)

Module Persistence.
















End Persistence.

(** ** Further readings of a trace *)

(** The number of "Error broadcasting to connection" lines logged. *)
Fixpoint errors_logged (t : list effect) : nat :=
  match t with
  | [] => 0
  | Log (ErrorBroadcasting _) :: t' => S (errors_logged t')
  | _ :: t' => errors_logged t'
  end.

(** Every member of a room has a handler, and it waits on that room. *)
Definition attached (w : World) : Prop :=
  ∀ a c, c ∈ connections (heap (store w) !!! a) →
         ∃ rid, sessions w !! c = Some (Receiving rid a).




(** ** The read-only routes *)

(** [list_rooms]: for every registered room its id, the number of its
    connections and its [last_updated] (of which the route returns the
    [isoformat()]).  [rooms.items()] goes in insertion order, which the
    registry as a finite map does not keep: the entries come in the order
    of [map_to_list], and the statements below are about which entries
    there are. *)
Definition list_rooms (σ : Store) : list (string * nat * time) :=
  (λ '(rid, a), (rid, size (connections (heap σ !!! a)),
                 last_updated (heap σ !!! a))) <$> map_to_list (rooms σ).

(** [root]: the "active_rooms" field of the health check, [len(rooms)];
    the other fields are constants. *)
Definition root (σ : Store) : nat := size (rooms σ).

(** ** Transports and scenarios used in the examples *)

(** Every send returns. *)
Definition healthy : conn → option exn := λ _, None.

(** Sends to [c] raise, the others return. *)
Definition dead (c : conn) : conn → option exn :=
  λ c', if decide (c' = c) then Some OSError else None.

(** Scenario A of the specification up to the arrival of the third client:
    X = 1 and Y = 2 join "doc1", X sends 0xAA, Y sends 0xBB. *)
Definition scenario_A : list input :=
  [ Connect 1 "doc1" 0 None healthy;
    Connect 2 "doc1" 1 None healthy;
    Receive 1 (Ok [xaa]) 2 healthy;
    Receive 2 (Ok [xbb]) 3 healthy ].

(** Two clients share room "doc"; the send to client 2 fails while client 1's
    update is relayed; later client 2's connection closes. *)
Definition dropped_then_closed : list input :=
  [ Connect 1 "doc" 0 None healthy;
    Connect 2 "doc" 1 None healthy;
    Receive 1 (Ok [xaa]) 2 (dead 2);
    Receive 2 (Raise WebSocketDisconnect) 3 healthy ].

(** Two clients share room "doc"; each one's update fails to reach the
    other; both connections close; a third client joins "doc". *)
Definition both_dropped : list input :=
  [ Connect 1 "doc" 0 None healthy;
    Connect 2 "doc" 1 None healthy;
    Receive 1 (Ok [xaa]) 2 (dead 2);
    Receive 2 (Ok [xbb]) 3 (dead 1);
    Receive 1 (Raise WebSocketDisconnect) 4 healthy;
    Receive 2 (Raise WebSocketDisconnect) 5 healthy ].

(** A client joins "doc" and sends one empty binary message. *)
Definition one_empty_update : list input :=
  [ Connect 1 "doc" 0 None healthy;
    Receive 1 (Ok []) 1 healthy ].

(** * Properties of [DocumentRoom.broadcast] *)

Section broadcast_loop.
Variables (tx : conn → option exn) (message : bytes) (exclude : option conn).

(** Who is sent to, and what, by the loop over a duplicate-free list. *)
Lemma broadcast_loop_sends todo disconnected c :
  NoDup todo →
  sends_to c (broadcast_loop tx message exclude todo disconnected).2 =
    if decide (c ∈ todo ∧ Some c ≠ exclude) then [(message, tx c)] else [].
Proof.
  intros Hnd. revert disconnected.
  induction Hnd as [|x todo Hx Hnd IH]; intros disconnected; simpl.
  - done.
  - assert (Hcons : ∀ P : Prop, (c ∈ x :: todo ∧ P) ↔ (c = x ∧ P) ∨ (c ∈ todo ∧ P)).
    { intros P. rewrite elem_of_cons. tauto. }
    destruct (decide (Some x ≠ exclude)) as [Hex|Hex].
    + unfold send_bytes. destruct (tx x) as [e|] eqn:Htx.
      * specialize (IH ({[x]} ∪ disconnected)).
        destruct (broadcast_loop _ _ _ todo _) as [d t]. simpl in *.
        destruct (decide (x = c)) as [->|Hne].
        -- rewrite IH, Htx. rewrite decide_False; [|by intros [? _]].
           rewrite decide_True; [done|]. split; [left|done].
        -- rewrite IH. apply decide_ext. rewrite Hcons. intuition congruence.
      * specialize (IH disconnected).
        destruct (broadcast_loop _ _ _ todo _) as [d t]. simpl in *.
        destruct (decide (x = c)) as [->|Hne].
        -- rewrite IH, Htx. rewrite decide_False; [|by intros [? _]].
           rewrite decide_True; [done|]. split; [left|done].
        -- rewrite IH. apply decide_ext. rewrite Hcons. intuition congruence.
    + rewrite IH. apply decide_ext. rewrite Hcons.
      split; [tauto|intros [[-> ?]|?]; tauto].
Qed.

(** Who ends up in [disconnected]. *)
Lemma broadcast_loop_disconnected todo disconnected c :
  c ∈ (broadcast_loop tx message exclude todo disconnected).1 ↔
    c ∈ disconnected ∨ (c ∈ todo ∧ Some c ≠ exclude ∧ is_Some (tx c)).
Proof.
  revert disconnected. induction todo as [|x todo IH]; intros disconnected; simpl.
  - rewrite elem_of_nil. tauto.
  - rewrite elem_of_cons. destruct (decide (Some x ≠ exclude)) as [Hex|Hex].
    + unfold send_bytes. destruct (tx x) as [e|] eqn:Htx.
      * specialize (IH ({[x]} ∪ disconnected)).
        destruct (broadcast_loop _ _ _ todo _) as [d t]. simpl in *.
        rewrite IH, elem_of_union, elem_of_singleton.
        split; [|naive_solver].
        intros [[->|?]|?]; [|tauto|tauto].
        right. split; [by left|]. split; [done|]. by rewrite Htx.
      * specialize (IH disconnected).
        destruct (broadcast_loop _ _ _ todo _) as [d t]. simpl in *.
        rewrite IH. split; [tauto|].
        intros [?|[[->|?] [? Hs]]]; [tauto| |tauto].
        rewrite Htx in Hs. by destruct Hs.
    + rewrite IH. naive_solver.
Qed.

End broadcast_loop.

(** The three components of a [broadcast] call. *)
Lemma broadcast_unfold tx self message exclude :
  broadcast tx self message exclude =
    let lp := broadcast_loop tx message exclude (elements (connections self)) ∅ in
    (set_connections (connections self ∖ lp.1) self, Ok (), lp.2).
Proof. unfold broadcast. by destruct (broadcast_loop _ _ _ _ _). Qed.

Lemma broadcast_sends tx self message exclude c :
  sends_to c (broadcast tx self message exclude).2 =
    if decide (c ∈ connections self ∧ Some c ≠ exclude) then [(message, tx c)] else [].
Proof.
  rewrite broadcast_unfold. simpl.
  rewrite broadcast_loop_sends; [|apply NoDup_elements].
  apply decide_ext. by rewrite elem_of_elements.
Qed.

Lemma broadcast_connections tx self message exclude c :
  c ∈ connections (broadcast tx self message exclude).1.1 ↔
    c ∈ connections self ∧ ¬ (Some c ≠ exclude ∧ is_Some (tx c)).
Proof.
  rewrite broadcast_unfold. simpl.
  rewrite elem_of_difference, broadcast_loop_disconnected, elem_of_elements.
  set_solver.
Qed.




(** [broadcast] writes to [self.connections] only. *)
Lemma broadcast_fields tx self message exclude :
  let R' := (broadcast tx self message exclude).1.1 in
  state R' = state self ∧ last_updated R' = last_updated self ∧
  room_id R' = room_id self.
Proof. by rewrite broadcast_unfold. Qed.


(** * Properties of the registry *)

(** The two branches of [get_or_create_room]. *)
Lemma get_or_create_room_present rid now σ a :
  rooms σ !! rid = Some a → get_or_create_room rid now σ = (Ok a, σ, []).
Proof.
  intros Ha. unfold get_or_create_room, bind, rooms_contains, rooms_getitem, ret.
  rewrite Ha. rewrite bool_decide_eq_true_2 by eauto. simpl. by rewrite Ha.
Qed.

Lemma get_or_create_room_absent rid now σ :
  rooms σ !! rid = None →
  get_or_create_room rid now σ =
    (Ok (fresh (dom (heap σ))),
     {| heap := <[fresh (dom (heap σ)) := DocumentRoom_init rid now]> (heap σ);
        rooms := <[rid := fresh (dom (heap σ))]> (rooms σ) |},
     [Log (CreatedRoom rid)]).
Proof.
  intros Hn. unfold get_or_create_room, bind, rooms_contains, rooms_getitem, ret,
    new, rooms_setitem, emit.
  rewrite Hn. rewrite bool_decide_eq_false_2 by (intros [? ?]; congruence).
  simpl. by rewrite lookup_insert_eq.
Qed.

(** C9. [get_or_create_room] returns the room already registered under the
    id when there is one, leaving everything as it is; otherwise it creates
    a room object that did not exist before, empty of members and of state,
    registers it under the id and returns it.  Hence two calls with the same
    id in a row return the same object, and the second changes nothing. *)
Theorem get_or_create_room_spec (rid : string) (now now' : time) (σ : Store) :
  (∀ a, rooms σ !! rid = Some a →
        get_or_create_room rid now σ = (Ok a, σ, [])) ∧
  (rooms σ !! rid = None →
     ∃ a, get_or_create_room rid now σ =
            (Ok a, {| heap := <[a := DocumentRoom_init rid now]> (heap σ);
                      rooms := <[rid := a]> (rooms σ) |},
             [Log (CreatedRoom rid)]) ∧
          heap σ !! a = None ∧
          connections (DocumentRoom_init rid now) = ∅ ∧
          state (DocumentRoom_init rid now) = []) ∧
  (∃ a σ1 t1, get_or_create_room rid now σ = (Ok a, σ1, t1) ∧
              rooms σ1 !! rid = Some a ∧
              get_or_create_room rid now' σ1 = (Ok a, σ1, [])).
Proof.
  split; [|split].
  - intros a Ha. by apply get_or_create_room_present.
  - intros Hn. exists (fresh (dom (heap σ))).
    split; [by apply get_or_create_room_absent|].
    split; [|done]. apply not_elem_of_dom, is_fresh.
  - destruct (rooms σ !! rid) as [a|] eqn:Hl.
    + exists a, σ, []. by rewrite !(get_or_create_room_present _ _ _ a).
    + eexists _, _, _. split; [by apply get_or_create_room_absent|]. simpl.
      split; [by rewrite lookup_insert_eq|].
      apply get_or_create_room_present. simpl. by rewrite lookup_insert_eq.
Qed.

(** A room registered under "doc" and an empty registry. *)
Lemma get_or_create_room_spec_witness :
  get_or_create_room "doc" 7
    {| heap := {[ 0 := DocumentRoom_init "doc" 3 ]}; rooms := {[ "doc" := 0 ]} |}
    = (Ok 0, {| heap := {[ 0 := DocumentRoom_init "doc" 3 ]};
                rooms := {[ "doc" := 0 ]} |}, []) ∧
  ∃ a, get_or_create_room "doc" 7 {| heap := ∅; rooms := ∅ |} =
         (Ok a, {| heap := <[a := DocumentRoom_init "doc" 7]> ∅;
                   rooms := <["doc" := a]> ∅ |},
          [Log (CreatedRoom "doc")]) ∧
       (∅ : gmap addr DocumentRoom) !! a = None ∧
       connections (DocumentRoom_init "doc" 7) = ∅ ∧
       state (DocumentRoom_init "doc" 7) = [].
Proof.
  split.
  - apply (get_or_create_room_spec "doc" 7 7
             {| heap := {[ 0 := DocumentRoom_init "doc" 3 ]};
                rooms := {[ "doc" := 0 ]} |}).
    reflexivity.
  - apply (get_or_create_room_spec "doc" 7 7 {| heap := ∅; rooms := ∅ |}).
    reflexivity.
Defined.

(** * The state log only grows *)

(** Traces of consecutive pieces of code. *)
Lemma accepted_app a t1 t2 : accepted a (t1 ++ t2) = accepted a t1 ++ accepted a t2.
Proof.
  induction t1 as [|[target payload outcome|room payload|m] t1 IH]; simpl; [done|done| |done].
  case_decide; [|done]. by rewrite IH.
Qed.

Lemma sends_to_app c t1 t2 : sends_to c (t1 ++ t2) = sends_to c t1 ++ sends_to c t2.
Proof.
  induction t1 as [|[target payload outcome|room payload|m] t1 IH]; simpl; [done| |done|done].
  case_decide; [|done]. by rewrite IH.
Qed.

(** [broadcast] accepts nothing. *)
Lemma broadcast_loop_accepted tx message exclude todo disconnected a :
  accepted a (broadcast_loop tx message exclude todo disconnected).2 = [].
Proof.
  revert disconnected. induction todo as [|x todo IH]; intros disconnected; simpl; [done|].
  case_decide; [|done]. destruct (send_bytes tx x).
  - specialize (IH disconnected). by destruct (broadcast_loop _ _ _ todo _).
  - specialize (IH ({[x]} ∪ disconnected)). by destruct (broadcast_loop _ _ _ todo _).
Qed.

Lemma broadcast_accepted tx self message exclude a :
  accepted a (broadcast tx self message exclude).2 = [].
Proof. rewrite broadcast_unfold. apply broadcast_loop_accepted. Qed.

(** ** Relations that handler code keeps

    [R σ t σ'] relates a store, the effects of a piece of code and the store
    it leaves.  For a relation that holds of doing nothing and composes
    along a sequence, what the primitive operations keep is kept by the
    combinators, by the clauses of [websocket_sync] and by the handler. *)

Section keeps.
Variable R : Store → list effect → Store → Prop.
Hypothesis R_refl : ∀ σ, R σ [] σ.
Hypothesis R_trans : ∀ σ1 t1 σ2 t2 σ3,
  R σ1 t1 σ2 → R σ2 t2 σ3 → R σ1 (t1 ++ t2) σ3.

Local Abbreviation keeps := (keeps R).

Lemma keeps_same {X} (m : Store → X * Store * list effect) :
  (∀ σ, (m σ).1.2 = σ ∧ (m σ).2 = []) → keeps m.
Proof. intros H σ. destruct (H σ) as [-> ->]. apply R_refl. Qed.

Lemma keeps_ext {X} (m m' : Store → X * Store * list effect) :
  (∀ σ, m σ = m' σ) → keeps m → keeps m'.
Proof. intros Heq Hm σ. rewrite <- Heq. apply Hm. Qed.

(** Sequencing, whatever the second piece makes of the first's result. *)
Lemma keeps_then {X Y} (m : Store → X * Store * list effect)
    (k : X → Store → Y * Store * list effect) :
  keeps m → (∀ x, keeps (k x)) →
  keeps (λ σ, let '(x, σ1, t1) := m σ in
              let '(y, σ2, t2) := k x σ1 in (y, σ2, t1 ++ t2)).
Proof.
  intros Hm Hk σ. specialize (Hm σ). destruct (m σ) as [[x σ1] t1].
  specialize (Hk x σ1). destruct (k x σ1) as [[y σ2] t2]. simpl in *.
  by eapply R_trans.
Qed.

Lemma keeps_ret {A} (x : A) : keeps (ret x).
Proof. by apply keeps_same. Qed.

Lemma keeps_raise {A} e : keeps (@raise A e).
Proof. by apply keeps_same. Qed.

Lemma keeps_deref a : keeps (deref a).
Proof. by apply keeps_same. Qed.

Lemma keeps_rooms_contains rid : keeps (rooms_contains rid).
Proof. by apply keeps_same. Qed.

Lemma keeps_rooms_getitem rid : keeps (rooms_getitem rid).
Proof.
  apply keeps_same. intros σ. unfold rooms_getitem. by destruct (rooms σ !! rid).
Qed.

Lemma keeps_bind {A B} (m : M A) (k : A → M B) :
  keeps m → (∀ x, keeps (k x)) → keeps (bind m k).
Proof.
  intros Hm Hk.
  eapply keeps_ext;
    [|apply (keeps_then m (λ r, match r with Ok x => k x | Raise e => raise e end));
      [done|intros [x|e]; [apply Hk|apply keeps_raise]]].
  intros σ. unfold bind, raise. destruct (m σ) as [[[x|e] σ1] t1]; [done|].
  by rewrite app_nil_r.
Qed.

Lemma keeps_try_except_finally {A} (body : M A) handler final :
  keeps body → (∀ e, keeps (handler e)) → keeps final →
  keeps (try_except_finally body handler final).
Proof.
  intros Hb Hh Hf.
  pose proof (keeps_then body
    (λ r, match r with Ok x => ret x | Raise e => handler e end) Hb) as H1.
  pose proof (keeps_then _ (λ r, λ σ, let '(r2, σ2, t2) := final σ in
      (match r2 with Ok _ => r | Raise e => Raise e end, σ2, t2))
    (H1 (λ r, match r with Ok x => keeps_ret x | Raise e => Hh e end))) as H2.
  eapply keeps_ext; [|apply H2].
  - intros σ. unfold try_except_finally, ret.
    destruct (body σ) as [[[x|e] σ1] t1].
    + rewrite app_nil_r. by destruct (final σ1) as [[[[]|e] σ2] t2].
    + destruct (handler e σ1) as [[r σ2] t2].
      by destruct (final σ2) as [[[[]|e'] σ3] t3].
  - intros r σ. specialize (Hf σ). by destruct (final σ) as [[r2 σ2] t2].
Qed.

(** The handler of one connection, given what the primitive operations
    on that connection keep. *)
Section handler.
Variable websocket : conn.
Hypothesis R_log : ∀ m, keeps (emit (Log m)).
Hypothesis R_sent : ∀ p o, keeps (emit (SendBytes websocket p o)).
Hypothesis R_setitem : ∀ rid a, keeps (rooms_setitem rid a).
Hypothesis R_delitem : ∀ rid, keeps (rooms_delitem rid).
Hypothesis R_new : ∀ rid now, keeps (new (DocumentRoom_init rid now)).
Hypothesis R_add : ∀ room, keeps (update room (connections_add websocket)).
Hypothesis R_remove : ∀ room,
  keeps (update room (λ r, set_connections (connections r ∖ {[websocket]}) r)).
Hypothesis R_touch : ∀ room now, keeps (update room (set_last_updated now)).
Hypothesis R_extend : ∀ room data,
  keeps (bind (update room (state_extend data)) (λ _, emit (Extend room data))).
Hypothesis R_broadcast : ∀ tx room message,
  keeps (room_broadcast tx room message (Some websocket)).

Local Hint Resolve keeps_ret keeps_raise keeps_deref keeps_rooms_contains
  keeps_rooms_getitem R_log R_sent R_setitem R_delitem R_new R_add R_remove
  R_touch R_extend R_broadcast : core.

Local Ltac step_bind := apply keeps_bind; [|intros ?].

Lemma bind_assoc {A B C} (m : M A) (k : A → M B) (h : B → M C) σ :
  bind (bind m k) h σ = bind m (λ x, bind (k x) h) σ.
Proof.
  unfold bind. destruct (m σ) as [[[x|e] σ1] t1]; [|done].
  destruct (k x σ1) as [[[y|e] σ2] t2]; [|done].
  destruct (h y σ2) as [[r σ3] t3]. by rewrite app_assoc.
Qed.

Lemma keeps_get_or_create_room rid now : keeps (get_or_create_room rid now).
Proof.
  unfold get_or_create_room. step_bind; [done|]. step_bind; [|done].
  destruct (negb x); [|done]. step_bind; [done|]. by step_bind.
Qed.

Lemma keeps_ws_join rid now : keeps (ws_join websocket rid now).
Proof.
  unfold ws_join. step_bind; [apply keeps_get_or_create_room|].
  step_bind; [done|]. step_bind; [done|]. by step_bind.
Qed.

Lemma keeps_ws_replay tx room : keeps (ws_replay tx websocket room).
Proof.
  unfold ws_replay. step_bind; [done|]. case_bool_decide; [|done].
  destruct (send_bytes tx websocket); [done|]. by step_bind.
Qed.

Lemma keeps_ws_relay tx room data now :
  keeps (ws_relay tx websocket room data now).
Proof.
  unfold ws_relay. eapply keeps_ext; [intros σ; apply bind_assoc|].
  step_bind; [done|]. by step_bind.
Qed.

Lemma keeps_ws_except rid e : keeps (ws_except rid e).
Proof. destruct e; apply R_log. Qed.

Lemma keeps_ws_finally rid room : keeps (ws_finally websocket rid room).
Proof.
  unfold ws_finally, connections_remove. step_bind.
  - step_bind; [done|]. by case_decide.
  - step_bind; [done|]. case_decide; [|done]. by step_bind.
Qed.

Lemma keeps_ws_try rid room stretch :
  keeps stretch → keeps (ws_try websocket rid room stretch).
Proof.
  intros Hs.
  pose proof (keeps_then stretch
    (λ r, match r with
          | Ok _ => λ σ, (Receiving rid room, σ, [])
          | Raise e => λ σ,
              let '(r, σ2, t2) :=
                try_except_finally (raise e) (ws_except rid)
                  (ws_finally websocket rid room) σ in
              (Finished r, σ2, t2)
          end) Hs) as H.
  eapply keeps_ext; [|apply H].
  - intros σ. unfold ws_try. destruct (stretch σ) as [[[[]|e] σ1] t1].
    + by rewrite app_nil_r.
    + by destruct (try_except_finally _ _ _ σ1) as [[r σ2] t2].
  - intros [[]|e]; [by apply keeps_same|]. intros σ.
    pose proof (keeps_try_except_finally (raise e) (ws_except rid)
      (ws_finally websocket rid room) (keeps_raise e) (keeps_ws_except rid)
      (keeps_ws_finally rid room) σ) as Ht.
    by destruct (try_except_finally _ _ _ σ) as [[r σ2] t2].
Qed.

Lemma keeps_websocket_sync_start rid now accept tx :
  keeps (websocket_sync_start websocket rid now accept tx).
Proof.
  destruct accept as [e|]; [by apply keeps_same|].
  pose proof (keeps_then (ws_join websocket rid now)
    (λ r, match r with
          | Ok room => ws_try websocket rid room (ws_replay tx websocket room)
          | Raise e => λ σ, (Finished (Raise e), σ, [])
          end) (keeps_ws_join rid now)) as H.
  eapply keeps_ext; [|apply H].
  - intros σ. unfold websocket_sync_start.
    destruct (ws_join websocket rid now σ) as [[[room|e] σ1] t1]; [done|].
    by rewrite app_nil_r.
  - intros [room|e]; [|by apply keeps_same].
    apply keeps_ws_try, keeps_ws_replay.
Qed.

Lemma keeps_websocket_sync_resume rid room received now tx :
  keeps (websocket_sync_resume websocket rid room received now tx).
Proof.
  apply keeps_ws_try. destruct received; [apply keeps_ws_relay|done].
Qed.
End handler.
End keeps.

(** ** First relation: state logs only grow *)

Lemma grows_refl σ : grows σ [] σ.
Proof. split; [done|]. split; [|done]. intros a. by rewrite app_nil_r. Qed.

Lemma grows_trans σ1 t1 σ2 t2 σ3 :
  grows σ1 t1 σ2 → grows σ2 t2 σ3 → grows σ1 (t1 ++ t2) σ3.
Proof.
  intros (Hd1 & Hs1 & Hi1) (Hd2 & Hs2 & Hi2). split; [set_solver|]. split.
  - intros a. by rewrite Hs2, Hs1, accepted_app, join_app, app_assoc.
  - intros a Ha. rewrite Hi2 by set_solver. by apply Hi1.
Qed.

(** Changes of the registry alone. *)
Lemma grows_rooms σ rs : grows σ [] {| heap := heap σ; rooms := rs |}.
Proof. split; [done|]. split; [|done]. intros a. by rewrite app_nil_r. Qed.

(** Writing to an object without touching its state log or id. *)
Lemma grows_update a f :
  (∀ r, state (f r) = state r ∧ room_id (f r) = room_id r) →
  keeps grows (update a f).
Proof.
  intros Hf σ. unfold grows. simpl. split; [apply dom_insert_subseteq|]. split.
  - intros a'. rewrite app_nil_r, lookup_total_insert. case_decide; [|done].
    subst. apply Hf.
  - intros a' _. rewrite lookup_total_insert. case_decide; [|done].
    subst. apply Hf.
Qed.

(** [room.state.extend(data)] *)
Lemma grows_extend room data :
  keeps grows (bind (update room (state_extend data)) (λ _, emit (Extend room data))).
Proof.
  intros σ. unfold grows. simpl. split; [apply dom_insert_subseteq|]. split.
  - intros a'. rewrite lookup_total_insert.
    destruct (decide (room = a')) as [->|?]; simpl; by rewrite app_nil_r.
  - intros a' _. rewrite lookup_total_insert. by case_decide; subst.
Qed.

Lemma grows_new r : state r = [] → keeps grows (new r).
Proof.
  intros Hr σ. unfold grows. simpl. pose proof (is_fresh (dom (heap σ))) as Hfresh.
  split; [apply dom_insert_subseteq|]. split.
  - intros a'. rewrite app_nil_r, lookup_total_insert. case_decide; [|done].
    subst. rewrite Hr. apply not_elem_of_dom in Hfresh.
    by rewrite lookup_total_alt, Hfresh.
  - intros a' Ha. rewrite lookup_total_insert_ne; [done|]. by intros <-.
Qed.

Lemma grows_room_broadcast tx room message exclude :
  keeps grows (room_broadcast tx room message exclude).
Proof.
  intros σ. unfold room_broadcast.
  pose proof (broadcast_accepted tx (heap σ !!! room) message exclude) as Hacc.
  pose proof (broadcast_fields tx (heap σ !!! room) message exclude) as Hfr.
  destruct (broadcast _ _ _ _) as [[r' res] t]. unfold grows. simpl in *.
  destruct Hfr as (Hst & _ & Hid).
  split; [apply dom_insert_subseteq|]. split.
  - intros a'. rewrite Hacc, app_nil_r, lookup_total_insert. case_decide; by subst.
  - intros a' _. rewrite lookup_total_insert. case_decide; by subst.
Qed.

Lemma grows_websocket_sync websocket :
  (∀ rid now accept tx,
     keeps grows (websocket_sync_start websocket rid now accept tx)) ∧
  (∀ rid room received now tx,
     keeps grows (websocket_sync_resume websocket rid room received now tx)).
Proof.
  split; intros; (first [apply keeps_websocket_sync_start
                        |apply keeps_websocket_sync_resume]);
    first [exact grows_refl | exact grows_trans | idtac];
    intros; try (intros σ; apply grows_refl);
    first [ by apply grows_update
          | apply grows_extend
          | by apply grows_new
          | apply grows_room_broadcast
          | intros σ; apply grows_rooms
          | idtac ].
  all: intros σ; unfold rooms_delitem; destruct (rooms σ !! rid0);
    [apply grows_rooms|apply grows_refl].
Qed.

(** One input, then any number of them. *)
Lemma step_grows i w : grows (store w) (step i w).2 (store (step i w).1).
Proof.
  destruct (grows_websocket_sync
              match i with Connect c _ _ _ _ | Receive c _ _ _ => c end)
    as [Hstart Hresume].
  destruct i as [websocket rid now accept tx|websocket received now tx]; simpl.
  - destruct (sessions w !! websocket); [apply grows_refl|].
    specialize (Hstart rid now accept tx (store w)).
    by destruct (websocket_sync_start _ _ _ _ _ _) as [[f σ] t].
  - destruct (sessions w !! websocket) as [[rid room|r]|];
      [|apply grows_refl|apply grows_refl].
    specialize (Hresume rid room received now tx (store w)).
    by destruct (websocket_sync_resume _ _ _ _ _ _ _) as [[f σ] t].
Qed.

Lemma run_grows inputs w : grows (store w) (run inputs w).2 (store (run inputs w).1).
Proof.
  revert w. induction inputs as [|i inputs IH]; intros w; simpl.
  - apply grows_refl.
  - pose proof (step_grows i w) as H1. destruct (step i w) as [w1 t1].
    specialize (IH w1). destruct (run inputs w1) as [w2 t2].
    by eapply grows_trans.
Qed.

(** C7. Whatever joins, updates, broadcasts and departures the server goes
    through, a room object that exists stays, keeps its id, and its earlier
    state log is a prefix of its later one: the log grows by exactly the
    updates accepted in between, in order, and is never reordered or cut. *)
Theorem state_log_append_only (inputs : list input) (w : World) (a : addr)
    (r : DocumentRoom) :
  heap (store w) !! a = Some r →
  ∃ r', heap (store (run inputs w).1) !! a = Some r' ∧
        state r `prefix_of` state r' ∧
        state r' = state r ++ mjoin (accepted a (run inputs w).2) ∧
        room_id r' = room_id r.
Proof.
  intros Hr. destruct (run_grows inputs w) as (Hd & Hs & Hi).
  assert (Ha : a ∈ dom (heap (store w))) by (apply elem_of_dom; eauto).
  assert (Ha' : a ∈ dom (heap (store (run inputs w).1))) by set_solver.
  apply elem_of_dom in Ha' as [r' Hr']. exists r'.
  specialize (Hs a). specialize (Hi a Ha).
  rewrite (lookup_total_correct _ _ _ Hr), (lookup_total_correct _ _ _ Hr') in Hs, Hi.
  split; [done|]. split; [|done]. rewrite Hs. by eexists.
Qed.

(** The room of scenario A before and after the scenario. *)
Lemma state_log_append_only_witness :
  let w := (run (take 3 scenario_A) initial).1 in
  heap (store w) !! 0 =
    Some {| room_id := "doc1"; connections := {[1; 2]};
            state := [xaa]; last_updated := 2 |} ∧
  ∃ r', heap (store (run (drop 3 scenario_A) w).1) !! 0 = Some r' ∧
        [xaa] `prefix_of` state r' ∧
        state r' = [xaa] ++ mjoin (accepted 0 (run (drop 3 scenario_A) w).2) ∧
        room_id r' = "doc1".
Proof.
  split; [vm_compute; reflexivity|].
  apply (state_log_append_only (drop 3 scenario_A)
           (run (take 3 scenario_A) initial).1 0
           {| room_id := "doc1"; connections := {[1; 2]};
              state := [xaa]; last_updated := 2 |}).
  vm_compute. reflexivity.
Defined.

(** * Replay on join *)

(** ** Second relation: only known connections are members or recipients *)

Section confined.
Variable S : gset conn.

Lemma confined_refl σ : confined S σ [] σ.
Proof. by intros H. Qed.

Lemma confined_trans σ1 t1 σ2 t2 σ3 :
  confined S σ1 t1 σ2 → confined S σ2 t2 σ3 → confined S σ1 (t1 ++ t2) σ3.
Proof.
  intros H1 H2 H. destruct (H1 H) as [Hm1 Hs1]. destruct (H2 Hm1) as [Hm2 Hs2].
  split; [done|]. intros c Hc. by rewrite sends_to_app, Hs1, Hs2.
Qed.

Lemma confined_rooms σ rs : confined S σ [] {| heap := heap σ; rooms := rs |}.
Proof. by intros H. Qed.

Lemma confined_update a f :
  (∀ r, connections r ⊆ S → connections (f r) ⊆ S) →
  keeps (confined S) (update a f).
Proof.
  intros Hf σ H. simpl. split; [|done]. intros a'.
  rewrite lookup_total_insert. case_decide; [|done]. by apply Hf.
Qed.

Lemma confined_extend room data :
  keeps (confined S)
    (bind (update room (state_extend data)) (λ _, emit (Extend room data))).
Proof.
  intros σ H. simpl. split; [|done]. intros a'.
  rewrite lookup_total_insert. case_decide; [|done]. simpl. apply H.
Qed.

Lemma confined_new rid now : keeps (confined S) (new (DocumentRoom_init rid now)).
Proof.
  intros σ H. simpl. split; [|done]. intros a'.
  rewrite lookup_total_insert. case_decide; [|done]. simpl. set_solver.
Qed.

Lemma confined_room_broadcast tx room message exclude :
  keeps (confined S) (room_broadcast tx room message exclude).
Proof.
  intros σ H. unfold room_broadcast.
  pose proof (broadcast_sends tx (heap σ !!! room) message exclude) as Hs.
  pose proof (broadcast_connections tx (heap σ !!! room) message exclude) as Hc.
  destruct (broadcast _ _ _ _) as [[r' res] t]. simpl in *. split.
  - intros a'. rewrite lookup_total_insert. case_decide; [|done].
    intros c Hin. apply Hc in Hin as [Hin _]. by apply (H room).
  - intros c Hout. rewrite Hs, decide_False; [done|].
    intros [Hin _]. by apply Hout, (H room).
Qed.

Lemma confined_websocket_sync websocket :
  websocket ∈ S →
  (∀ rid now accept tx,
     keeps (confined S) (websocket_sync_start websocket rid now accept tx)) ∧
  (∀ rid room received now tx,
     keeps (confined S) (websocket_sync_resume websocket rid room received now tx)).
Proof.
  intros Hin.
  assert (Hsent : ∀ p o, keeps (confined S) (emit (SendBytes websocket p o))).
  { intros p o σ H. simpl. split; [done|]. intros c Hc.
    rewrite decide_False; [done|]. by intros <-. }
  assert (Hdel : ∀ rid, keeps (confined S) (rooms_delitem rid)).
  { intros rid σ. unfold rooms_delitem.
    destruct (rooms σ !! rid); [apply confined_rooms|apply confined_refl]. }
  split; intros;
    (first [apply keeps_websocket_sync_start|apply keeps_websocket_sync_resume]);
    first [ exact confined_refl | exact confined_trans | exact Hsent | exact Hdel
          | exact confined_new | exact confined_extend
          | intros; apply confined_room_broadcast
          | intros; apply confined_update; intros r Hr; simpl; set_solver
          | intros; intros σ; apply confined_rooms
          | intros; intros σ; apply confined_refl ].
Qed.
End confined.

(** The connections that appear in rooms or in the trace so far all have a
    handler, running or finished. *)
Lemma step_known i w t :
  known w t → known (step i w).1 (t ++ (step i w).2).
Proof.
  intros [Hm Hs].
  assert (Hsame : known w (t ++ [])) by (by rewrite app_nil_r).
  assert (Hgo : ∀ websocket (f : frame) σ' t',
    confined ({[websocket]} ∪ dom (sessions w)) (store w) t' σ' →
    known {| store := σ'; sessions := <[websocket := f]> (sessions w) |} (t ++ t')).
  { intros websocket f σ' t' Hc. destruct Hc as [Hm' Hs'].
    - intros a. specialize (Hm a). set_solver.
    - split; simpl.
      + intros a. rewrite dom_insert_L. apply Hm'.
      + intros c. rewrite dom_insert_L. intros Hc.
        rewrite sends_to_app, Hs', Hs; [done|set_solver|done]. }
  destruct i as [websocket rid now accept tx|websocket received now tx]; simpl.
  - destruct (sessions w !! websocket); [done|].
    destruct (confined_websocket_sync ({[websocket]} ∪ dom (sessions w)) websocket)
      as [Hstart _]; [set_solver|].
    specialize (Hstart rid now accept tx (store w)).
    destruct (websocket_sync_start _ _ _ _ _ _) as [[f σ] t']. by apply Hgo.
  - destruct (sessions w !! websocket) as [[rid room|r]|]; [|done|done].
    destruct (confined_websocket_sync ({[websocket]} ∪ dom (sessions w)) websocket)
      as [_ Hresume]; [set_solver|].
    specialize (Hresume rid room received now tx (store w)).
    destruct (websocket_sync_resume _ _ _ _ _ _ _) as [[f σ] t']. by apply Hgo.
Qed.

Lemma run_known inputs w t :
  known w t → known (run inputs w).1 (t ++ (run inputs w).2).
Proof.
  revert w t. induction inputs as [|i inputs IH]; intros w t Hk; simpl.
  - by rewrite app_nil_r.
  - apply (step_known i) in Hk. destruct (step i w) as [w1 t1]. simpl in Hk.
    apply IH in Hk. destruct (run inputs w1) as [w2 t2]. simpl in *.
    by rewrite app_assoc.
Qed.

Lemma initial_known : known initial [].
Proof.
  split; [|done]. intros a. simpl. rewrite lookup_total_empty. simpl. set_solver.
Qed.

(** Lines 110-113 in closed form. *)
Lemma ws_join_unfold websocket rid now σ :
  ws_join websocket rid now σ =
    match rooms σ !! rid with
    | Some a =>
        (Ok a,
         {| heap := <[a := connections_add websocket (heap σ !!! a)]> (heap σ);
            rooms := rooms σ |},
         [Log (ClientConnected rid
                 (size ({[websocket]} ∪ connections (heap σ !!! a))))])
    | None =>
        let a := fresh (dom (heap σ)) in
        (Ok a,
         {| heap := <[a := connections_add websocket (DocumentRoom_init rid now)]>
                      (<[a := DocumentRoom_init rid now]> (heap σ));
            rooms := <[rid := a]> (rooms σ) |},
         [Log (CreatedRoom rid);
          Log (ClientConnected rid (size ({[websocket]} ∪ (∅ : gset conn))))])
    end.
Proof.
  unfold ws_join, bind. destruct (rooms σ !! rid) as [a|] eqn:Hl.
  - rewrite (get_or_create_room_present _ _ _ a Hl). simpl.
    by rewrite lookup_total_insert_eq.
  - rewrite (get_or_create_room_absent _ _ _ Hl). simpl.
    by rewrite !lookup_total_insert_eq.
Qed.

(** The [except] and [finally] clauses send nothing. *)
Lemma cleanup_sends_nothing websocket rid room e σ c :
  sends_to c (try_except_finally (raise e) (ws_except rid)
                (ws_finally websocket rid room) σ).2 = [].
Proof.
  unfold try_except_finally, ws_finally, connections_remove, ws_except, bind,
    deref, update, raise, emit, rooms_delitem, ret.
  destruct e; simpl; repeat (case_decide; simpl); repeat (case_match; simpl);
    by simplify_eq.
Qed.

(** C2, as the code has it.  Let a new connection join room [rid] after any
    run of the server, and let [R] be the room object it joins: the one
    registered under [rid], or a new one.  Nothing was sent to the
    connection before.  During the join, before any later broadcast, it is
    sent one message, the concatenation of the updates [R] accepted so far
    in the order of acceptance, when that concatenation is not empty, and
    nothing when it is empty, as it is when [R] accepted no update.  Unless
    that send raises, the handler then waits for messages on [R]. *)
Theorem replay_on_join (pre : list input) (websocket : conn) (rid : string)
    (now : time) (tx : conn → option exn) :
  let w := (run pre initial).1 in
  let t := (run pre initial).2 in
  let joined := step (Connect websocket rid now None tx) w in
  sessions w !! websocket = None →
  ∃ R : addr,
    (ws_join websocket rid now (store w)).1.1 = Ok R ∧
    (∀ a, rooms (store w) !! rid = Some a → R = a) ∧
    (accepted R t = [] → mjoin (accepted R t) = []) ∧
    sends_to websocket t = [] ∧
    sends_to websocket joined.2 =
      (if decide (mjoin (accepted R t) = []) then []
       else [(mjoin (accepted R t), tx websocket)]) ∧
    (tx websocket = None ∨ mjoin (accepted R t) = [] →
     sessions joined.1 !! websocket = Some (Receiving rid R)).
Proof.
  intros w t joined Hnew.
  pose proof (run_grows pre initial) as (_ & Hstate & _).
  pose proof (run_known pre initial [] initial_known) as [_ Hsent].
  fold w t in Hstate. simpl in Hsent. fold w t in Hsent.
  set (R := match rooms (store w) !! rid with
            | Some a => a
            | None => fresh (dom (heap (store w)))
            end).
  assert (Hlog : state (heap (store w) !!! R) = mjoin (accepted R t)).
  { rewrite Hstate. simpl. by rewrite lookup_total_empty. }
  exists R. split; [|split; [|split; [|split]]].
  - rewrite ws_join_unfold. unfold R. by destruct (rooms (store w) !! rid).
  - intros a Ha. unfold R. by rewrite Ha.
  - by intros ->.
  - apply Hsent. by apply not_elem_of_dom.
  - assert (Hsnap : ∀ σ1 tj, ws_join websocket rid now (store w) = (Ok R, σ1, tj) →
      state (heap σ1 !!! R) = mjoin (accepted R t) ∧ sends_to websocket tj = []).
    { rewrite ws_join_unfold. unfold R in *. clear R.
      destruct (rooms (store w) !! rid) as [a|] eqn:Hl.
      - intros σ1 tj [= <- <-]. simpl. by rewrite lookup_total_insert_eq.
      - intros σ1 tj [= <- <-]. simpl. rewrite lookup_total_insert_eq. simpl.
        rewrite <- Hlog. pose proof (is_fresh (dom (heap (store w)))) as Hf.
        apply not_elem_of_dom in Hf. by rewrite lookup_total_alt, Hf. }
    assert (Hj : ∃ σ1 tj, ws_join websocket rid now (store w) = (Ok R, σ1, tj)).
    { rewrite ws_join_unfold. unfold R. destruct (rooms (store w) !! rid); eauto. }
    destruct Hj as (σ1 & tj & Hj). destruct (Hsnap σ1 tj Hj) as [Hst Htj].
    unfold joined. simpl. rewrite Hnew. unfold websocket_sync_start. rewrite Hj.
    unfold ws_try, ws_replay, bind, deref, send_bytes. rewrite Hst.
    destruct (decide (mjoin (accepted R t) = [])) as [Hempty|Hfull].
    + rewrite bool_decide_eq_false_2 by (by intros ?). simpl.
      split; [by rewrite sends_to_app, Htj|]. intros _. by rewrite lookup_insert_eq.
    + rewrite bool_decide_eq_true_2 by done.
      destruct (tx websocket) as [e|] eqn:Htx; simpl.
      * pose proof (cleanup_sends_nothing websocket rid R e σ1 websocket) as Hc.
        destruct (try_except_finally _ _ _ σ1) as [[r σ2] t2]. simpl in *.
        split; [|by intros [?|?]].
        rewrite sends_to_app, Htj. simpl. rewrite decide_True by done.
        by rewrite Hc.
      * split; [|intros _; by rewrite lookup_insert_eq].
        rewrite sends_to_app, Htj. simpl. by rewrite decide_True.
Qed.

(** The third client of scenario A is sent 0xAA 0xBB. *)
Lemma replay_on_join_witness :
  sessions (run scenario_A initial).1 !! 3 = None ∧
  ∃ R : addr,
    (ws_join 3 "doc1" 4 (store (run scenario_A initial).1)).1.1 = Ok R ∧
    (∀ a, rooms (store (run scenario_A initial).1) !! "doc1" = Some a → R = a) ∧
    (accepted R (run scenario_A initial).2 = [] →
     mjoin (accepted R (run scenario_A initial).2) = []) ∧
    sends_to 3 (run scenario_A initial).2 = [] ∧
    sends_to 3 (step (Connect 3 "doc1" 4 None healthy) (run scenario_A initial).1).2 =
      (if decide (mjoin (accepted R (run scenario_A initial).2) = []) then []
       else [(mjoin (accepted R (run scenario_A initial).2), healthy 3)]) ∧
    (healthy 3 = None ∨ mjoin (accepted R (run scenario_A initial).2) = [] →
     sessions (step (Connect 3 "doc1" 4 None healthy) (run scenario_A initial).1).1 !! 3
       = Some (Receiving "doc1" R)).
Proof.
  split; [vm_compute; reflexivity|].
  apply (replay_on_join scenario_A 3 "doc1" 4 healthy).
  vm_compute. reflexivity.
Defined.

(** C2 as stated fails on an empty update: after the one update of
    [one_empty_update], which is the empty message, was accepted by the room
    of "doc" (N = 1), a second client that joins is sent nothing, not a
    snapshot. *)
Lemma replay_of_empty_update_counterexample :
  let w := (run one_empty_update initial).1 in
  let t := (run one_empty_update initial).2 in
  let joined := step (Connect 2 "doc" 2 None healthy) w in
  sessions w !! 2 = None ∧
  rooms (store w) !! "doc" = Some 0 ∧
  sessions joined.1 !! 2 = Some (Receiving "doc" 0) ∧
  length (accepted 0 t) = 1 ∧
  sends_to 2 joined.2 = [] ∧
  ¬ (sends_to 2 joined.2 =
       if decide (accepted 0 t = []) then []
       else [(mjoin (accepted 0 t), healthy 2)]).
Proof. vm_compute. repeat split; try reflexivity. discriminate. Qed.

(** * Departure of a connection that a broadcast has already removed *)

(** [set.remove] of an absent element: the [finally] clause raises
    [KeyError] at its first statement and leaves the store as it was; the
    room is not looked at and not deleted. *)
Lemma ws_finally_absent websocket rid room σ :
  websocket ∉ connections (heap σ !!! room) →
  ws_finally websocket rid room σ = (Raise KeyError, σ, []).
Proof.
  intros H. unfold ws_finally, connections_remove, bind, deref. simpl.
  by rewrite decide_False.
Qed.

(** C4, at the failing input.  In [dropped_then_closed] client 2 is removed
    from the room by the broadcast of client 1's update (the send to it
    failed).  When client 2's handler then runs its [finally] clause,
    [room.connections.remove(websocket)] raises [KeyError]: leaving a room
    one is no longer in is an error, not a no-op. *)
Theorem leave_after_drop_raises :
  let w := (run (take 3 dropped_then_closed) initial).1 in
  sessions w !! 2 = Some (Receiving "doc" 0) ∧
  (2 ∉ connections (heap (store w) !!! 0)) ∧
  ws_finally 2 "doc" 0 (store w) = (Raise KeyError, store w, []).
Proof.
  split; [vm_compute; reflexivity|].
  assert (H : 2 ∉ connections (heap (store (run (take 3 dropped_then_closed) initial).1) !!! 0)).
  { vm_compute. discriminate. }
  split; [done|]. by apply ws_finally_absent.
Qed.

(** The same at the level of the handler: when the connection is no longer
    a member, whatever ends the session, [KeyError] leaves the handler and
    the store is as before: the room is not deleted even if it is empty. *)
Lemma departure_after_drop w websocket rid room e now tx :
  sessions w !! websocket = Some (Receiving rid room) →
  websocket ∉ connections (heap (store w) !!! room) →
  (step (Receive websocket (Raise e) now tx) w).1 =
    {| store := store w;
       sessions := <[websocket := Finished (Raise KeyError)]> (sessions w) |}.
Proof.
  intros Hs Hout. simpl. rewrite Hs.
  unfold websocket_sync_resume, ws_try, try_except_finally, raise.
  destruct (ws_except rid e (store w)) as [[r σ1] t1] eqn:He.
  assert (σ1 = store w) as -> by (by destruct e; injection He).
  by rewrite (ws_finally_absent _ _ _ _ Hout).
Qed.

(** C5, at the failing input.  At the end of [dropped_then_closed] the
    handler of client 2, whose connection closed in an orderly way, has not
    returned: [KeyError] propagated out of it, from the first statement of
    its [finally] clause, and the rest of the clause did not run. *)
Theorem cleanup_raises_after_drop :
  let before := (run (take 3 dropped_then_closed) initial).1 in
  let after := (run dropped_then_closed initial).1 in
  sessions before !! 2 = Some (Receiving "doc" 0) ∧
  sessions after !! 2 = Some (Finished (Raise KeyError)) ∧
  store after = store before.
Proof. vm_compute. repeat split; reflexivity. Qed.

(** C6, at the failing input.  In [both_dropped] each of the two clients is
    removed from the room by the broadcast of the other's update.  From then
    on the room is registered and has no member; both departures raise
    [KeyError] before the room could be deleted; the room stays registered
    with its state, and the next client to join "doc" is given that old
    room and is sent the old state. *)
Theorem empty_room_stays_registered :
  let during := (run (take 4 both_dropped) initial).1 in
  let after := (run both_dropped initial).1 in
  let joined := step (Connect 3 "doc" 6 None healthy) after in
  (rooms (store during) !! "doc" = Some 0 ∧
   connections (heap (store during) !!! 0) = ∅) ∧
  (sessions after !! 1 = Some (Finished (Raise KeyError)) ∧
   sessions after !! 2 = Some (Finished (Raise KeyError)) ∧
   rooms (store after) !! "doc" = Some 0 ∧
   connections (heap (store after) !!! 0) = ∅ ∧
   state (heap (store after) !!! 0) = [xaa; xbb]) ∧
  (sessions joined.1 !! 3 = Some (Receiving "doc" 0) ∧
   sends_to 3 joined.2 = [([xaa; xbb], None)]).
Proof. vm_compute. repeat split; reflexivity. Qed.

(** * The registry and the membership *)

Lemma shrinks_refl σ : shrinks σ [] σ.
Proof. by repeat split. Qed.

Lemma shrinks_trans σ1 t1 σ2 t2 σ3 :
  shrinks σ1 t1 σ2 → shrinks σ2 t2 σ3 → shrinks σ1 (t1 ++ t2) σ3.
Proof.
  intros (Hr1 & Hd1 & Hi1 & Hc1) (Hr2 & Hd2 & Hi2 & Hc2).
  split; [congruence|]. split; [set_solver|]. split.
  - intros a. by rewrite Hi2.
  - intros a. specialize (Hc1 a). specialize (Hc2 a). set_solver.
Qed.

Lemma shrinks_update a f :
  (∀ r, room_id (f r) = room_id r ∧ connections (f r) ⊆ connections r) →
  keeps shrinks (update a f).
Proof.
  intros Hf σ. unfold shrinks. simpl. split; [done|].
  split; [apply dom_insert_subseteq|].
  split; intros a'; rewrite lookup_total_insert; (case_decide; [subst; apply Hf|done]).
Qed.

Lemma shrinks_room_broadcast tx room message exclude :
  keeps shrinks (room_broadcast tx room message exclude).
Proof.
  intros σ. unfold room_broadcast.
  pose proof (broadcast_connections tx (heap σ !!! room) message exclude) as Hc.
  pose proof (broadcast_fields tx (heap σ !!! room) message exclude) as Hfr.
  destruct (broadcast _ _ _ _) as [[r' res] t]. unfold shrinks. simpl in *.
  destruct Hfr as (_ & _ & Hid). split; [done|].
  split; [apply dom_insert_subseteq|].
  split; intros a'; rewrite lookup_total_insert; (case_decide; [subst|done]);
    [done|]. intros c Hin. by apply Hc in Hin as [? _].
Qed.

(** One turn of the loop returns, and only removes members. *)
Lemma ws_relay_shrinks tx websocket room data now σ :
  (ws_relay tx websocket room data now σ).1.1 = Ok () ∧
  shrinks σ (ws_relay tx websocket room data now σ).2
    (ws_relay tx websocket room data now σ).1.2.
Proof.
  split.
  - unfold ws_relay, bind, update, emit, room_broadcast. simpl.
    rewrite broadcast_unfold. done.
  - revert σ. change (keeps shrinks (ws_relay tx websocket room data now)).
    unfold ws_relay.
    repeat (apply (keeps_bind shrinks shrinks_refl shrinks_trans); [|intros ?]).
    + by apply shrinks_update.
    + intros σ. apply shrinks_refl.
    + by apply shrinks_update.
    + apply shrinks_room_broadcast.
Qed.

Lemma reg_shrinks σ t σ' : shrinks σ t σ' → reg σ → reg σ'.
Proof.
  intros (Hr & Hd & Hi & Hc) [Ha Hb]. split.
  - intros a Hne. rewrite Hr, Hi. apply Ha. specialize (Hc a). set_solver.
  - intros rid a. rewrite Hr, Hi. intros Hl. destruct (Hb rid a Hl). set_solver.
Qed.

(** Joining keeps the registry in order and makes the caller a member of
    a room of the id asked for. *)
Lemma reg_ws_join websocket rid now σ :
  reg σ →
  ∃ R σ1 tj, ws_join websocket rid now σ = (Ok R, σ1, tj) ∧
    reg σ1 ∧ R ∈ dom (heap σ1) ∧ room_id (heap σ1 !!! R) = rid ∧
    websocket ∈ connections (heap σ1 !!! R) ∧ rooms σ1 !! rid = Some R.
Proof.
  intros [Ha Hb]. rewrite ws_join_unfold.
  destruct (rooms σ !! rid) as [a|] eqn:Hl.
  - destruct (Hb rid a Hl) as [Hdom Hid].
    eexists _, _, _. split; [done|]. simpl.
    rewrite lookup_total_insert_eq. simpl.
    split; [|split; [set_solver|split; [done|split; [set_solver|done]]]].
    split; simpl.
    + intros a'. rewrite lookup_total_insert. case_decide as Heq; [|apply Ha].
      subst a'. simpl. intros _. by rewrite Hid.
    + intros rid' a' Hl'. destruct (Hb rid' a' Hl') as [? ?].
      split; [set_solver|]. rewrite lookup_total_insert.
      case_decide as Heq; [by subst a'|done].
  - pose proof (is_fresh (dom (heap σ))) as Hfresh.
    set (R := fresh (dom (heap σ))) in *.
    eexists _, _, _. split; [done|]. simpl.
    rewrite lookup_total_insert_eq. simpl.
    split; [|split; [set_solver|split; [done|split; [set_solver|]]]];
      [|by rewrite lookup_insert_eq].
    split; simpl.
    + intros a'. rewrite !lookup_total_insert.
      case_decide; [subst; simpl; intros _; by rewrite lookup_insert_eq|].
      intros Hne. specialize (Ha a' Hne).
      rewrite lookup_insert_ne; [done|]. intros Heq. rewrite <- Heq in Ha. congruence.
    + intros rid' a'. rewrite lookup_insert. case_decide.
      * intros [= <-]. subst. rewrite lookup_total_insert_eq. set_solver.
      * intros Hl'. destruct (Hb rid' a' Hl') as [? ?].
        split; [set_solver|]. rewrite !lookup_total_insert.
        case_decide; [subst; by destruct Hfresh|done].
Qed.

(** The [finally] clause in closed form, for a connection that is still a
    member. *)
Lemma ws_finally_member websocket rid room σ :
  websocket ∈ connections (heap σ !!! room) →
  let r' := set_connections (connections (heap σ !!! room) ∖ {[websocket]})
              (heap σ !!! room) in
  ws_finally websocket rid room σ =
    if decide (connections r' = ∅) then
      match rooms σ !! rid with
      | Some _ => (Ok (), {| heap := <[room := r']> (heap σ);
                             rooms := delete rid (rooms σ) |},
                   [Log (RoomEmpty rid)])
      | None => (Raise KeyError, {| heap := <[room := r']> (heap σ);
                                    rooms := rooms σ |},
                 [Log (RoomEmpty rid)])
      end
    else (Ok (), {| heap := <[room := r']> (heap σ); rooms := rooms σ |}, []).
Proof.
  intros Hin. unfold ws_finally, connections_remove, bind, deref, update, emit,
    rooms_delitem, ret. simpl. rewrite decide_True by done. simpl.
  rewrite lookup_total_insert_eq. simpl. case_decide; [|done]. simpl.
  by destruct (rooms σ !! rid).
Qed.

(** The [finally] clause keeps the registry in order; run for a member, it
    returns, the member is gone, and the room is unregistered exactly when
    that leaves it empty. *)
Lemma reg_ws_finally websocket rid room σ :
  reg σ → room_id (heap σ !!! room) = rid →
  reg (ws_finally websocket rid room σ).1.2 ∧
  (websocket ∈ connections (heap σ !!! room) →
   (ws_finally websocket rid room σ).1.1 = Ok () ∧
   connections (heap (ws_finally websocket rid room σ).1.2 !!! room) =
     connections (heap σ !!! room) ∖ {[websocket]} ∧
   rooms (ws_finally websocket rid room σ).1.2 =
     if decide (connections (heap σ !!! room) ∖ {[websocket]} = ∅)
     then delete rid (rooms σ) else rooms σ).
Proof.
  intros Hreg Hid.
  destruct (decide (websocket ∈ connections (heap σ !!! room))) as [Hin|Hout];
    [|by rewrite ws_finally_absent].
  assert (Hl : rooms σ !! rid = Some room).
  { destruct Hreg as [Ha _]. rewrite <- Hid. apply Ha. set_solver. }
  rewrite (ws_finally_member _ _ _ _ Hin). simpl. rewrite Hl.
  destruct Hreg as [Ha Hb].
  destruct (decide (connections (heap σ !!! room) ∖ {[websocket]} = ∅))
    as [Hempty|Hmore]; simpl; (split; [|intros _; by rewrite lookup_total_insert_eq]).
  - split; simpl.
    + intros a. rewrite lookup_total_insert. case_decide; [by subst|].
      intros Hne. specialize (Ha a Hne). rewrite lookup_delete_ne; [done|].
      intros Heq. rewrite <- Heq in Ha. congruence.
    + intros rid' a. rewrite lookup_delete. case_decide; [done|]. intros Hl'.
      destruct (Hb rid' a Hl') as [? ?]. split; [set_solver|].
      rewrite lookup_total_insert. case_decide; [|done]. subst. simpl. congruence.
  - apply (reg_shrinks σ []); [|done]. unfold shrinks. simpl.
    split; [done|]. split; [apply dom_insert_subseteq|].
    split; intros a; rewrite lookup_total_insert;
      (case_decide; [subst; simpl|done]); [done|set_solver].
Qed.

(** What the handler's exit through [except] and [finally] leaves is what
    the [finally] clause leaves. *)
Lemma cleanup_is_finally websocket rid room e σ :
  (try_except_finally (raise e) (ws_except rid) (ws_finally websocket rid room) σ).1 =
    (ws_finally websocket rid room σ).1.
Proof.
  unfold try_except_finally, raise.
  destruct (ws_except rid e σ) as [[r σ1] t1] eqn:He.
  assert (r = Ok () ∧ σ1 = σ) as [-> ->] by (by destruct e; injection He).
  by destruct (ws_finally websocket rid room σ) as [[[[]|e'] σ2] t2].
Qed.

(** The handler when [receive_bytes] raises. *)
Lemma websocket_sync_resume_raise websocket rid room e now tx σ :
  websocket_sync_resume websocket rid room (Raise e) now tx σ =
    let '(r, σ2, t2) :=
      try_except_finally (raise e) (ws_except rid)
        (ws_finally websocket rid room) σ in
    (Finished r, σ2, t2).
Proof. reflexivity. Qed.

(** Replaying the state changes nothing in the store. *)
Lemma ws_replay_store tx websocket room σ :
  (ws_replay tx websocket room σ).1.2 = σ.
Proof.
  unfold ws_replay, bind, deref. simpl. case_bool_decide; [|done].
  by destruct (send_bytes tx websocket).
Qed.

Lemma registered_after w σ' t f websocket :
  registered w → grows (store w) t σ' → reg σ' →
  (∀ rid room, f = Receiving rid room →
     room ∈ dom (heap σ') ∧ room_id (heap σ' !!! room) = rid) →
  registered {| store := σ'; sessions := <[websocket := f]> (sessions w) |}.
Proof.
  intros [_ Hc] (Hd & _ & Hi) Hreg Hf. split; [done|]. simpl.
  intros ws rid room. rewrite lookup_insert. case_decide.
  - intros [= ->]. by apply Hf.
  - intros Hl. destruct (Hc ws rid room Hl) as [Hdom Hid].
    split; [set_solver|]. by rewrite Hi.
Qed.

(** Every input keeps the registry in order. *)
Lemma step_registered i w : registered w → registered (step i w).1.
Proof.
  intros Hw.
  destruct (grows_websocket_sync
              match i with Connect c _ _ _ _ | Receive c _ _ _ => c end)
    as [Hstart Hresume].
  destruct i as [websocket rid now accept tx|websocket received now tx]; simpl.
  - destruct (sessions w !! websocket) eqn:Hs; [done|].
    specialize (Hstart rid now accept tx (store w)).
    unfold websocket_sync_start in *. destruct accept as [e|].
    { eapply registered_after; [done|apply grows_refl|apply Hw|done]. }
    destruct (reg_ws_join websocket rid now (store w) (proj1 Hw))
      as (R & σ1 & tj & Hj & Hreg & Hdom & Hid & Hin & _).
    rewrite Hj in *. unfold ws_try in *.
    pose proof (ws_replay_store tx websocket R σ1) as Hst.
    destruct (ws_replay tx websocket R σ1) as [[[[]|e] σ2] t2]; simpl in Hst; subst σ2.
    + eapply registered_after; [done|apply Hstart|done|]. by intros ?? [= <- <-].
    + pose proof (cleanup_is_finally websocket rid R e σ1) as Hc.
      destruct (try_except_finally _ _ _ σ1) as [[r σ3] t3]. simpl in Hc.
      eapply registered_after; [done|apply Hstart| |done].
      destruct (reg_ws_finally websocket rid R σ1 Hreg Hid) as [H _].
      by rewrite <- Hc in H.
  - destruct (sessions w !! websocket) as [[rid room|r]|] eqn:Hs; [|done|done].
    destruct Hw as [Hreg Hc]. destruct (Hc websocket rid room Hs) as [Hdom Hid].
    specialize (Hresume rid room received now tx (store w)).
    destruct received as [data|e].
    + unfold websocket_sync_resume, ws_try in *.
      destruct (ws_relay_shrinks tx websocket room data now (store w)) as [Hok Hsh].
      destruct (ws_relay tx websocket room data now (store w)) as [[[[]|e] σ1] t1];
        [|done]. simpl in *.
      eapply registered_after; [by split|apply Hresume|by eapply reg_shrinks|].
      intros ?? [= <- <-]. destruct Hresume as (Hd & _ & Hi).
      split; [set_solver|]. by rewrite Hi.
    + rewrite websocket_sync_resume_raise in *.
      pose proof (cleanup_is_finally websocket rid room e (store w)) as Hcl.
      destruct (try_except_finally _ _ _ (store w)) as [[r σ3] t3]. simpl in Hcl.
      simpl. eapply registered_after; [by split|apply Hresume| |done].
      destruct (reg_ws_finally websocket rid room (store w) Hreg Hid) as [H _].
      by rewrite <- Hcl in H.
Qed.

Lemma run_registered inputs w : registered w → registered (run inputs w).1.
Proof.
  revert w. induction inputs as [|i inputs IH]; intros w Hw; simpl; [done|].
  apply (step_registered i) in Hw. destruct (step i w) as [w1 t1]. simpl in Hw.
  apply IH in Hw. by destruct (run inputs w1) as [w2 t2].
Qed.

Lemma initial_registered : registered initial.
Proof.
  split; [split|]; simpl.
  - intros a. by rewrite lookup_total_empty.
  - intros rid a. by rewrite lookup_empty.
  - intros ws rid room. by rewrite lookup_empty.
Qed.

(** Whatever happened before, a room that has a member is the room
    registered under its id: the half of the room lifecycle that the code
    keeps. *)
Lemma member_room_is_registered inputs a :
  let σ := store (run inputs initial).1 in
  connections (heap σ !!! a) ≠ ∅ → rooms σ !! room_id (heap σ !!! a) = Some a.
Proof.
  intros σ. destruct (run_registered inputs initial initial_registered) as [[Ha _] _].
  apply Ha.
Qed.

(** Whatever happened before, the departure of a connection that is still
    a member of its room completes: the handler returns, the connection is
    no longer a member, and the room is unregistered exactly when the
    departure leaves it empty. *)
Lemma departure_of_member_completes inputs websocket rid room e now tx :
  let w := (run inputs initial).1 in
  let w' := (step (Receive websocket (Raise e) now tx) w).1 in
  sessions w !! websocket = Some (Receiving rid room) →
  websocket ∈ connections (heap (store w) !!! room) →
  sessions w' !! websocket = Some (Finished (Ok ())) ∧
  connections (heap (store w') !!! room) =
    connections (heap (store w) !!! room) ∖ {[websocket]} ∧
  rooms (store w') =
    if decide (connections (heap (store w) !!! room) ∖ {[websocket]} = ∅)
    then delete rid (rooms (store w)) else rooms (store w).
Proof.
  intros w w' Hs Hin.
  destruct (run_registered inputs initial initial_registered) as [Hreg Hc].
  fold w in Hreg, Hc. destruct (Hc websocket rid room Hs) as [_ Hid].
  destruct (reg_ws_finally websocket rid room (store w) Hreg Hid) as [_ H].
  destruct (H Hin) as (Hok & Hconn & Hrooms). clear H.
  unfold w'. simpl. rewrite Hs, websocket_sync_resume_raise.
  pose proof (cleanup_is_finally websocket rid room e (store w)) as Hcl.
  destruct (try_except_finally _ _ _ (store w)) as [[r σ3] t3]. simpl in *.
  rewrite <- Hcl in Hok, Hconn, Hrooms. simpl in *. subst r.
  by rewrite lookup_insert_eq.
Qed.

(** * Document persistence *)

Module PersistenceFacts.
Import Persistence.







End PersistenceFacts.

(** * More on [DocumentRoom.broadcast] *)

(** Two rooms with the same fields are the same room. *)
Lemma DocumentRoom_eq (r r' : DocumentRoom) :
  room_id r = room_id r' → connections r = connections r' →
  state r = state r' → last_updated r = last_updated r' → r = r'.
Proof. destruct r, r'. simpl. by intros -> -> -> ->. Qed.

(** The room after a broadcast is determined by who stays. *)
Lemma broadcast_room_eq tx R p exclude (R'' : DocumentRoom) :
  room_id R'' = room_id R → state R'' = state R →
  last_updated R'' = last_updated R →
  (∀ c, c ∈ connections R'' ↔
          c ∈ connections R ∧ ¬ (Some c ≠ exclude ∧ is_Some (tx c))) →
  (broadcast tx R p exclude).1.1 = R''.
Proof.
  intros Hid Hst Hlu Hc.
  destruct (broadcast_fields tx R p exclude) as (Hst' & Hlu' & Hid').
  apply DocumentRoom_eq; [congruence| |congruence|congruence].
  apply set_eq. intros c. by rewrite broadcast_connections, Hc.
Qed.

(** The error lines of the loop: one for each connection it adds to
    [disconnected]. *)
Lemma broadcast_loop_errors tx message exclude todo disconnected :
  NoDup todo → (∀ c, c ∈ todo → c ∉ disconnected) →
  size (broadcast_loop tx message exclude todo disconnected).1 =
    size disconnected +
    errors_logged (broadcast_loop tx message exclude todo disconnected).2.
Proof.
  intros Hnd. revert disconnected.
  induction Hnd as [|x todo Hx Hnd IH]; intros disconnected Hdisj; simpl; [lia|].
  assert (Hrest : ∀ c, c ∈ todo → c ∉ disconnected).
  { intros c Hc. apply Hdisj. by right. }
  case_decide; [|by apply IH]. destruct (send_bytes tx x).
  - specialize (IH disconnected Hrest).
    destruct (broadcast_loop _ _ _ todo _) as [d t]. by simpl in *.
  - specialize (IH ({[x]} ∪ disconnected)).
    destruct (broadcast_loop _ _ _ todo _) as [d t]. simpl in *.
    rewrite IH.
    + rewrite size_union, size_singleton; [lia|].
      assert (x ∉ disconnected) by (apply Hdisj; by left). set_solver.
    + intros c Hc. specialize (Hrest c Hc). set_solver.
Qed.

(** The error lines of a broadcast count the connections the loop found
    disconnected. *)
Lemma broadcast_errors tx R p exclude :
  errors_logged (broadcast tx R p exclude).2 =
    size (broadcast_loop tx p exclude (elements (connections R)) ∅).1.
Proof.
  rewrite broadcast_unfold. simpl.
  rewrite (broadcast_loop_errors tx p exclude (elements (connections R)) ∅);
    [|apply NoDup_elements|set_solver].
  by rewrite size_empty.
Qed.

(** A broadcast in which no send to a recipient fails. *)
Lemma broadcast_no_failure tx (R : DocumentRoom) (p : bytes) (exclude : option conn) :
  (∀ c, c ∈ connections R → ¬ (Some c ≠ exclude ∧ is_Some (tx c))) →
  (broadcast tx R p exclude).1.1 = R ∧
  errors_logged (broadcast tx R p exclude).2 = 0.
Proof.
  intros Hok. split.
  - apply broadcast_room_eq; try done. intros c. split; [|tauto].
    intros Hc. split; [done|]. by apply Hok.
  - rewrite broadcast_errors.
    apply size_empty_iff, elem_of_equiv_empty. intros c Hc.
    apply broadcast_loop_disconnected in Hc as [Hc|(Hin & Hex & Hs)]; [set_solver|].
    apply elem_of_elements in Hin. by apply (Hok c Hin).
Qed.

(** X1. When no send to a member raises, a broadcast leaves the room
    exactly as it was and logs no error. *)
Theorem broadcast_all_delivered tx (R : DocumentRoom) (p : bytes)
    (exclude : option conn) :
  (∀ c, c ∈ connections R → Some c ≠ exclude → tx c = None) →
  (broadcast tx R p exclude).1.1 = R ∧
  errors_logged (broadcast tx R p exclude).2 = 0.
Proof.
  intros Hok. apply broadcast_no_failure. intros c Hc [Hex Hs].
  rewrite (Hok c Hc Hex) in Hs. by destruct Hs.
Qed.

Lemma broadcast_all_delivered_witness :
  let R := {| room_id := "doc"; connections := {[1; 2; 3]};
              state := [xaa]; last_updated := 0 |} in
  (broadcast (dead 1) R [xbb] (Some 1)).1.1 = R ∧
  errors_logged (broadcast (dead 1) R [xbb] (Some 1)).2 = 0.
Proof.
  apply (broadcast_all_delivered (dead 1)).
  intros c _ Hc. unfold dead. rewrite decide_False; [done|].
  intros ->. by apply Hc.
Defined.

(** X2. A broadcast never adds a member, and never removes the connection
    it excludes: the sender of an update stays in the room whatever happens
    to the sends. *)
Theorem broadcast_keeps_sender tx (R : DocumentRoom) (p : bytes) (m : conn) :
  connections (broadcast tx R p (Some m)).1.1 ⊆ connections R ∧
  (m ∈ connections R → m ∈ connections (broadcast tx R p (Some m)).1.1).
Proof.
  split.
  - intros c Hc. by apply broadcast_connections in Hc as [? _].
  - intros Hm. apply broadcast_connections. split; [done|]. by intros [? _].
Qed.

Lemma broadcast_keeps_sender_witness :
  let R := {| room_id := "doc"; connections := {[1; 2]};
              state := []; last_updated := 0 |} in
  connections (broadcast (dead 1) R [xbb] (Some 1)).1.1 ⊆ connections R ∧
  1 ∈ connections (broadcast (dead 1) R [xbb] (Some 1)).1.1.
Proof.
  split.
  - apply (broadcast_keeps_sender (dead 1)).
  - apply (broadcast_keeps_sender (dead 1)). vm_compute. reflexivity.
Defined.




(** The loop over connections that are all excluded does nothing. *)
Lemma broadcast_loop_excluded tx message exclude todo disconnected :
  (∀ c, c ∈ todo → Some c = exclude) →
  broadcast_loop tx message exclude todo disconnected = (disconnected, []).
Proof.
  induction todo as [|x todo IH]; intros Hall; simpl; [done|].
  rewrite decide_False.
  - apply IH. intros c Hc. apply Hall. by right.
  - intros Hne. apply Hne, Hall. by left.
Qed.

(** X6. When the room has no member besides the excluded sender (it is
    alone, or the room is empty) a broadcast has no effect at all: nothing
    is sent, nothing is logged, the room is unchanged. *)
Theorem broadcast_alone tx (R : DocumentRoom) (p : bytes) (m : conn) :
  connections R ⊆ {[m]} →
  broadcast tx R p (Some m) = (R, Ok (), []).
Proof.
  intros Halone. rewrite broadcast_unfold.
  rewrite broadcast_loop_excluded.
  - simpl. f_equal. f_equal. apply DocumentRoom_eq; simpl; try done. set_solver.
  - intros c Hc. apply elem_of_elements in Hc. f_equal. set_solver.
Qed.

Lemma broadcast_alone_witness :
  let R := {| room_id := "doc"; connections := {[1]};
              state := [xaa]; last_updated := 0 |} in
  broadcast (dead 1) R [xbb] (Some 1) = (R, Ok (), []).
Proof. apply (broadcast_alone (dead 1)). set_solver. Defined.

(** * More on the registry *)

(** X7. [get_or_create_room] touches nothing but the entry of the id it is
    asked for: the rooms registered under other ids stay registered, and
    every room object that existed is left as it was. *)
Theorem get_or_create_room_frame (rid : string) (now : time) (σ : Store) :
  let σ' := (get_or_create_room rid now σ).1.2 in
  (∀ rid', rid' ≠ rid → rooms σ' !! rid' = rooms σ !! rid') ∧
  (∀ a r, heap σ !! a = Some r → heap σ' !! a = Some r).
Proof.
  destruct (rooms σ !! rid) as [a|] eqn:Hl.
  - by rewrite (get_or_create_room_present _ _ _ a Hl).
  - rewrite (get_or_create_room_absent _ _ _ Hl). simpl. split.
    + intros rid' Hne. by rewrite lookup_insert_ne.
    + intros a r Ha. rewrite lookup_insert_ne; [done|]. intros <-.
      pose proof (is_fresh (dom (heap σ))) as Hf. apply not_elem_of_dom in Hf.
      congruence.
Qed.

Lemma get_or_create_room_frame_witness :
  let σ := {| heap := {[ 0 := DocumentRoom_init "a" 3 ]}; rooms := {[ "a" := 0 ]} |} in
  rooms (get_or_create_room "b" 5 σ).1.2 !! "a" = Some 0 ∧
  heap (get_or_create_room "b" 5 σ).1.2 !! 0 = Some (DocumentRoom_init "a" 3).
Proof.
  split.
  - rewrite (proj1 (get_or_create_room_frame "b" 5 _) "a"); [reflexivity|done].
  - apply (get_or_create_room_frame "b" 5). reflexivity.
Defined.

(** * More on [websocket_sync] *)

(** Lines 110-113: what joining does to the store. *)
Lemma ws_join_spec websocket rid now σ :
  ∃ R σ1 tj, ws_join websocket rid now σ = (Ok R, σ1, tj) ∧
    rooms σ1 = <[rid := R]> (rooms σ) ∧
    match rooms σ !! rid with
    | Some a => R = a
    | None => R ∉ dom (heap σ)
    end ∧
    (∀ a, connections (heap σ1 !!! a) =
            if decide (a = R) then {[websocket]} ∪ connections (heap σ !!! a)
            else connections (heap σ !!! a)) ∧
    (∀ a, state (heap σ1 !!! a) = state (heap σ !!! a)) ∧
    (∀ a, a ≠ R → heap σ1 !! a = heap σ !! a) ∧
    (∀ c, sends_to c tj = []).
Proof.
  rewrite ws_join_unfold. destruct (rooms σ !! rid) as [a|] eqn:Hl.
  - eexists _, _, _. split; [done|]. simpl.
    split; [by rewrite insert_id|]. split; [done|]. split; [|split; [|split]].
    + intros a'. rewrite lookup_total_insert.
      case_decide; rewrite ?decide_True, ?decide_False by done; by subst.
    + intros a'. rewrite lookup_total_insert. by case_decide; subst.
    + intros a' Hne. by rewrite lookup_insert_ne.
    + done.
  - pose proof (is_fresh (dom (heap σ))) as Hf.
    assert (Hd : heap σ !!! fresh (dom (heap σ)) = DocumentRoom_init "" 0).
    { apply not_elem_of_dom in Hf. by rewrite lookup_total_alt, Hf. }
    eexists _, _, _. split; [done|]. simpl.
    split; [done|]. split; [done|]. split; [|split; [|split]].
    + intros a'. rewrite !lookup_total_insert.
      case_decide; rewrite ?decide_True, ?decide_False by done; [|done].
      subst. by rewrite Hd.
    + intros a'. rewrite !lookup_total_insert. case_decide; [|done].
      subst. by rewrite Hd.
    + intros a' Hne. by rewrite !lookup_insert_ne.
    + done.
Qed.

(** Lines 137-143: what the [finally] clause does to the memberships. *)
Lemma ws_finally_connections websocket rid room σ a :
  connections (heap (ws_finally websocket rid room σ).1.2 !!! a) =
    if decide (a = room) then connections (heap σ !!! a) ∖ {[websocket]}
    else connections (heap σ !!! a).
Proof.
  destruct (decide (websocket ∈ connections (heap σ !!! room))) as [Hin|Hout].
  - assert (Hheap : heap (ws_finally websocket rid room σ).1.2 =
      <[room := set_connections (connections (heap σ !!! room) ∖ {[websocket]})
                  (heap σ !!! room)]> (heap σ)).
    { rewrite (ws_finally_member _ _ _ _ Hin). simpl. by repeat case_match. }
    rewrite Hheap, lookup_total_insert.
    destruct (decide (room = a)) as [->|Hne].
    + by rewrite decide_True.
    + by rewrite decide_False.
  - rewrite (ws_finally_absent _ _ _ _ Hout). simpl.
    case_decide; [|done]. subst. set_solver.
Qed.

(** Every input keeps the members attached to their handlers. *)
Lemma step_attached i w : attached w → attached (step i w).1.
Proof.
  intros Hw. destruct i as [websocket rid now accept tx|websocket received now tx];
    simpl.
  - destruct (sessions w !! websocket) eqn:Hs; [done|].
    assert (Hother : ∀ a c, c ∈ connections (heap (store w) !!! a) → c ≠ websocket).
    { intros a c Hc ->. destruct (Hw a websocket Hc) as [? ?]. congruence. }
    unfold websocket_sync_start. destruct accept as [e|].
    { intros a c Hc. simpl in *. rewrite lookup_insert_ne; [by apply Hw|].
      intros <-. by eapply Hother. }
    destruct (ws_join_spec websocket rid now (store w))
      as (R & σ1 & tj & Hj & _ & _ & Hconn & _).
    rewrite Hj. unfold ws_try.
    pose proof (ws_replay_store tx websocket R σ1) as Hst.
    destruct (ws_replay tx websocket R σ1) as [[[[]|e] σ2] t2]; simpl in Hst; subst σ2.
    + intros a c. simpl. rewrite Hconn, lookup_insert.
      destruct (decide (a = R)) as [->|Hne].
      * rewrite elem_of_union, elem_of_singleton. intros [->|Hc].
        -- rewrite decide_True by done. eauto.
        -- rewrite decide_False; [by apply Hw|]. intros <-. by eapply Hother.
      * intros Hc. rewrite decide_False; [by apply Hw|]. intros <-. by eapply Hother.
    + pose proof (cleanup_is_finally websocket rid R e σ1) as Hc.
      pose proof (ws_finally_connections websocket rid R σ1) as Hfc.
      destruct (try_except_finally _ _ _ σ1) as [[r σ3] t3]. simpl in Hc.
      rewrite <- Hc in Hfc. simpl in *.
      intros a c. simpl. rewrite Hfc, Hconn.
      destruct (decide (a = R)) as [->|Hne].
      * rewrite elem_of_difference, elem_of_union, !elem_of_singleton.
        intros [[->|Hin] Hne]; [done|]. rewrite lookup_insert_ne by done.
        by apply Hw.
      * intros Hin. rewrite lookup_insert_ne; [by apply Hw|].
        intros <-. by eapply Hother.
  - destruct (sessions w !! websocket) as [[rid room|r]|] eqn:Hs; [|done|done].
    destruct received as [data|e].
    + unfold websocket_sync_resume, ws_try.
      destruct (ws_relay_shrinks tx websocket room data now (store w))
        as [Hok (_ & _ & _ & Hsub)].
      destruct (ws_relay tx websocket room data now (store w)) as [[[[]|e] σ1] t1];
        [|done]. simpl in *.
      intros a c Hc. simpl in *. apply Hsub, Hw in Hc as [rid' Hc].
      rewrite lookup_insert. case_decide; [|eauto]. subst. rewrite Hs in Hc.
      injection Hc as <- <-. eauto.
    + rewrite websocket_sync_resume_raise.
      pose proof (cleanup_is_finally websocket rid room e (store w)) as Hc.
      pose proof (ws_finally_connections websocket rid room (store w)) as Hfc.
      destruct (try_except_finally _ _ _ (store w)) as [[r σ3] t3]. simpl in Hc.
      rewrite <- Hc in Hfc. simpl in *.
      intros a c. simpl. rewrite Hfc.
      destruct (decide (a = room)) as [->|Hne].
      * rewrite elem_of_difference, elem_of_singleton. intros [Hin Hne].
        rewrite lookup_insert_ne by done. by apply Hw.
      * intros Hin. destruct (Hw a c Hin) as [rid' Hc'].
        rewrite lookup_insert_ne; [eauto|]. intros <-. congruence.
Qed.

Lemma run_attached inputs w : attached w → attached (run inputs w).1.
Proof.
  revert w. induction inputs as [|i inputs IH]; intros w Hw; simpl; [done|].
  apply (step_attached i) in Hw. destruct (step i w) as [w1 t1]. simpl in Hw.
  apply IH in Hw. by destruct (run inputs w1) as [w2 t2].
Qed.

Lemma initial_attached : attached initial.
Proof. intros a c. simpl. rewrite lookup_total_empty. set_solver. Qed.

(** X8. Whatever happened before, every member of a room has a handler
    that is waiting for messages on that very room: no connection is a
    member of a room after its handler has ended, and no connection is a
    member of two rooms. *)
Theorem members_have_handlers (inputs : list input) :
  let w := (run inputs initial).1 in
  (∀ a c, c ∈ connections (heap (store w) !!! a) →
          ∃ rid, sessions w !! c = Some (Receiving rid a)) ∧
  (∀ a a' c, c ∈ connections (heap (store w) !!! a) →
             c ∈ connections (heap (store w) !!! a') → a = a').
Proof.
  intros w. pose proof (run_attached inputs initial initial_attached) as Hw.
  fold w in Hw. split; [done|]. intros a a' c Ha Ha'.
  destruct (Hw a c Ha) as [rid H], (Hw a' c Ha') as [rid' H']. congruence.
Qed.

Lemma members_have_handlers_witness :
  let w := (run scenario_A initial).1 in
  ∃ rid, sessions w !! 2 = Some (Receiving rid 0).
Proof.
  apply (members_have_handlers scenario_A). vm_compute. reflexivity.
Defined.

(** X9. Whatever happened before, what the registry holds under an id is a
    live room object carrying that id; so two ids never share a room
    object. *)
Theorem registry_is_consistent (inputs : list input) :
  let σ := store (run inputs initial).1 in
  (∀ rid a, rooms σ !! rid = Some a →
            is_Some (heap σ !! a) ∧ room_id (heap σ !!! a) = rid) ∧
  (∀ rid rid' a, rooms σ !! rid = Some a → rooms σ !! rid' = Some a → rid = rid').
Proof.
  intros σ. destruct (run_registered inputs initial initial_registered) as [[_ Hb] _].
  fold σ in Hb. split.
  - intros rid a Hl. destruct (Hb rid a Hl) as [Hd Hid].
    split; [by apply elem_of_dom|done].
  - intros rid rid' a Hl Hl'.
    destruct (Hb rid a Hl) as [_ <-], (Hb rid' a Hl') as [_ <-]. done.
Qed.

Lemma registry_is_consistent_witness :
  let σ := store (run scenario_A initial).1 in
  is_Some (heap σ !! 0) ∧ room_id (heap σ !!! 0) = "doc1".
Proof.
  apply (registry_is_consistent scenario_A). vm_compute. reflexivity.
Defined.

(** X10. Whatever happened before, a room that has at least one member is
    registered, under its own id. *)
Theorem room_with_members_is_registered (inputs : list input) (a : addr) :
  let σ := store (run inputs initial).1 in
  connections (heap σ !!! a) ≠ ∅ → rooms σ !! room_id (heap σ !!! a) = Some a.
Proof.
  intros σ. destruct (run_registered inputs initial initial_registered) as [[Ha _] _].
  apply Ha.
Qed.

Lemma room_with_members_is_registered_witness :
  let σ := store (run scenario_A initial).1 in
  rooms σ !! room_id (heap σ !!! 0) = Some 0.
Proof.
  apply (room_with_members_is_registered scenario_A 0). vm_compute. discriminate.
Defined.

(** X11. Whatever happened before, when [receive_bytes] raises in the
    handler of a connection that is still a member of its room, the handler
    returns normally, the connection is removed from the room and no other
    membership changes, and the room is deleted from the registry exactly
    when the connection was its last member. *)
Theorem departure_of_member (inputs : list input) (websocket : conn)
    (rid : string) (room : addr) (e : exn) (now : time) (tx : conn → option exn) :
  let w := (run inputs initial).1 in
  let w' := (step (Receive websocket (Raise e) now tx) w).1 in
  sessions w !! websocket = Some (Receiving rid room) →
  websocket ∈ connections (heap (store w) !!! room) →
  sessions w' !! websocket = Some (Finished (Ok ())) ∧
  (∀ a, connections (heap (store w') !!! a) =
          if decide (a = room) then connections (heap (store w) !!! a) ∖ {[websocket]}
          else connections (heap (store w) !!! a)) ∧
  rooms (store w') =
    if decide (connections (heap (store w) !!! room) = {[websocket]})
    then delete rid (rooms (store w)) else rooms (store w).
Proof.
  intros w w' Hs Hin.
  destruct (run_registered inputs initial initial_registered) as [Hreg Hc].
  fold w in Hreg, Hc. destruct (Hc websocket rid room Hs) as [_ Hid].
  destruct (reg_ws_finally websocket rid room (store w) Hreg Hid) as [_ H].
  destruct (H Hin) as (Hok & _ & Hrooms). clear H.
  pose proof (ws_finally_connections websocket rid room (store w)) as Hfc.
  unfold w'. simpl. rewrite Hs, websocket_sync_resume_raise.
  pose proof (cleanup_is_finally websocket rid room e (store w)) as Hcl.
  destruct (try_except_finally _ _ _ (store w)) as [[r σ3] t3]. simpl in *.
  rewrite <- Hcl in Hok, Hfc, Hrooms. simpl in *. subst r.
  split; [by rewrite lookup_insert_eq|]. split; [done|].
  rewrite Hrooms. apply decide_ext. split; intros Heq.
  - apply set_eq. intros c. rewrite elem_of_singleton. split.
    + intros Hc'. destruct (decide (c = websocket)); [done|]. set_solver.
    + by intros ->.
  - rewrite Heq. set_solver.
Qed.

Lemma departure_of_member_witness :
  let w := (run scenario_A initial).1 in
  let w' := (step (Receive 2 (Raise WebSocketDisconnect) 4 healthy) w).1 in
  sessions w' !! 2 = Some (Finished (Ok ())) ∧
  (∀ a, connections (heap (store w') !!! a) =
          if decide (a = 0) then connections (heap (store w) !!! a) ∖ {[2]}
          else connections (heap (store w) !!! a)) ∧
  rooms (store w') =
    if decide (connections (heap (store w) !!! 0) = {[2]})
    then delete "doc1" (rooms (store w)) else rooms (store w).
Proof.
  apply (departure_of_member scenario_A 2 "doc1" 0 WebSocketDisconnect 4 healthy).
  - vm_compute. reflexivity.
  - vm_compute. reflexivity.
Defined.








(** X14. A new connection whose [accept] and replay go through becomes a
    member of the room registered under the id, or of a new empty room
    registered for it when there was none, and its handler waits on that
    room.  The other members, the state of the room, every other room
    object and the registrations of other ids are as before. *)
Theorem join_step (w : World) (websocket : conn) (rid : string) (now : time)
    (tx : conn → option exn) :
  sessions w !! websocket = None →
  tx websocket = None →
  let w' := (step (Connect websocket rid now None tx) w).1 in
  ∃ R : addr,
    sessions w' = <[websocket := Receiving rid R]> (sessions w) ∧
    rooms (store w') = <[rid := R]> (rooms (store w)) ∧
    match rooms (store w) !! rid with
    | Some a => R = a
    | None => heap (store w) !! R = None
    end ∧
    connections (heap (store w') !!! R) =
      {[websocket]} ∪ connections (heap (store w) !!! R) ∧
    state (heap (store w') !!! R) = state (heap (store w) !!! R) ∧
    (∀ a, a ≠ R → heap (store w') !! a = heap (store w) !! a).
Proof.
  intros Hs Htx w'. unfold w'. simpl. rewrite Hs. unfold websocket_sync_start.
  destruct (ws_join_spec websocket rid now (store w))
    as (R & σ1 & tj & Hj & Hrooms & HR & Hconn & Hstate & Hother & _).
  rewrite Hj. exists R.
  assert (Hrep : ∃ t2, ws_replay tx websocket R σ1 = (Ok (), σ1, t2)).
  { unfold ws_replay, bind, deref, send_bytes. rewrite Htx. simpl.
    case_bool_decide; simpl; eauto. }
  destruct Hrep as [t2 Hrep]. unfold ws_try. rewrite Hrep. simpl.
  split; [done|]. split; [done|]. split.
  { destruct (rooms (store w) !! rid); [done|]. by apply not_elem_of_dom. }
  split; [by rewrite Hconn, decide_True|]. by split.
Qed.

Lemma join_step_witness :
  let w := (run scenario_A initial).1 in
  let w' := (step (Connect 3 "doc1" 4 None healthy) w).1 in
  ∃ R : addr,
    sessions w' = <[3 := Receiving "doc1" R]> (sessions w) ∧
    rooms (store w') = <["doc1" := R]> (rooms (store w)) ∧
    match rooms (store w) !! "doc1" with
    | Some a => R = a
    | None => heap (store w) !! R = None
    end ∧
    connections (heap (store w') !!! R) = {[3]} ∪ connections (heap (store w) !!! R) ∧
    state (heap (store w') !!! R) = state (heap (store w) !!! R) ∧
    (∀ a, a ≠ R → heap (store w') !! a = heap (store w) !! a).
Proof.
  apply (join_step (run scenario_A initial).1 3 "doc1" 4 healthy).
  - vm_compute. reflexivity.
  - reflexivity.
Defined.



(** * The order of delivery *)

(** The [except] and [finally] clauses accept nothing. *)
Lemma cleanup_accepts_nothing websocket rid room e σ a :
  accepted a (try_except_finally (raise e) (ws_except rid)
                (ws_finally websocket rid room) σ).2 = [].
Proof.
  unfold try_except_finally, ws_finally, connections_remove, ws_except, bind,
    deref, update, raise, emit, rooms_delitem, ret.
  destruct e; simpl; repeat (case_decide; simpl); repeat (case_match; simpl);
    by simplify_eq.
Qed.

(** What the arrival of a new connection adds to the trace: at most the
    replay of the state of the room it joins. *)
Lemma connect_trace w websocket rid now tx :
  sessions w !! websocket = None →
  let w' := (step (Connect websocket rid now None tx) w).1 in
  let t' := (step (Connect websocket rid now None tx) w).2 in
  ∃ R, match rooms (store w) !! rid with
       | Some a => R = a
       | None => R ∉ dom (heap (store w))
       end ∧
       (∀ rid' R', sessions w' !! websocket = Some (Receiving rid' R') → R' = R) ∧
       (∀ a, accepted a t' = []) ∧
       (∀ c, (sends_to c t').*1 =
               if decide (c = websocket ∧ state (heap (store w) !!! R) ≠ [])
               then [state (heap (store w) !!! R)] else []).
Proof.
  intros Hs. simpl. rewrite Hs. unfold websocket_sync_start.
  destruct (ws_join_spec websocket rid now (store w))
    as (R & σ1 & tj & Hj & _ & HR & _ & Hstate & _ & Hsj).
  assert (Haj : ∀ a, accepted a tj = []).
  { intros a. rewrite ws_join_unfold in Hj.
    destruct (rooms (store w) !! rid); by injection Hj as <- <- <-. }
  rewrite Hj. exists R. split; [done|].
  unfold ws_try, ws_replay, bind, deref, send_bytes.
  rewrite Hstate. simpl.
  destruct (decide (state (heap (store w) !!! R) = [])) as [Hempty|Hfull].
  - rewrite bool_decide_eq_false_2 by (by intros ?). simpl.
    split; [intros ??; rewrite lookup_insert_eq; by intros [= _ <-]|].
    split; [intros a; by rewrite app_nil_r|].
    intros c. rewrite app_nil_r, Hsj. rewrite decide_False; [done|]. by intros [_ ?].
  - rewrite bool_decide_eq_true_2 by done.
    destruct (tx websocket) as [e|] eqn:Htx; simpl.
    + pose proof (cleanup_sends_nothing websocket rid R e σ1) as Hcs.
      pose proof (cleanup_accepts_nothing websocket rid R e σ1) as Hca.
      destruct (try_except_finally _ _ _ σ1) as [[r σ2] t2]. simpl in *.
      split; [intros ??; by rewrite lookup_insert_eq|].
      split; [intros a; rewrite !accepted_app, Haj; simpl; by rewrite ?accepted_app, ?Hca|].
      intros c. rewrite !sends_to_app, Hsj. simpl. rewrite ?sends_to_app, ?Hcs.
      destruct (decide (websocket = c)) as [->|Hne].
      * by rewrite decide_True.
      * rewrite decide_False; [done|]. by intros [-> _].
    + split; [intros ??; rewrite lookup_insert_eq; by intros [= _ <-]|].
      split; [intros a; by rewrite !accepted_app, Haj|].
      intros c. rewrite !sends_to_app, Hsj. simpl.
      destruct (decide (websocket = c)) as [->|Hne].
      * by rewrite decide_True.
      * rewrite decide_False; [done|]. by intros [-> _].
Qed.











(** * The read-only routes *)

(** X17. The health check and the listing agree: "active_rooms" is the
    number of rooms listed, and no id is listed twice. *)
Theorem list_rooms_root (σ : Store) :
  length (list_rooms σ) = root σ ∧ NoDup (list_rooms σ).*1.*1.
Proof.
  unfold list_rooms, root. split.
  - by rewrite length_fmap, length_map_to_list.
  - assert (Hids : ((λ '(rid, a), (rid, size (connections (heap σ !!! a)),
                       last_updated (heap σ !!! a))) <$> map_to_list (rooms σ)).*1.*1
                   = (map_to_list (rooms σ)).*1).
    { rewrite <- !list_fmap_compose. apply list_fmap_ext. by intros ? [rid a]. }
    rewrite Hids. apply NoDup_fst_map_to_list.
Qed.

(** X18. Whatever happened before, every room that has a member is listed,
    under its own id, with the number of its members and its timestamp. *)
Theorem rooms_with_members_are_listed (inputs : list input) (a : addr) :
  let σ := store (run inputs initial).1 in
  connections (heap σ !!! a) ≠ ∅ →
  (room_id (heap σ !!! a), size (connections (heap σ !!! a)),
   last_updated (heap σ !!! a)) ∈ list_rooms σ.
Proof.
  intros σ Hne.
  destruct (run_registered inputs initial initial_registered) as [[Ha _] _].
  fold σ in Ha. specialize (Ha a Hne). unfold list_rooms.
  apply list_elem_of_fmap. exists (room_id (heap σ !!! a), a).
  split; [done|]. by apply elem_of_map_to_list.
Qed.

Lemma rooms_with_members_are_listed_witness :
  let σ := store (run scenario_A initial).1 in
  (room_id (heap σ !!! 0), size (connections (heap σ !!! 0)),
   last_updated (heap σ !!! 0)) ∈ list_rooms σ.
Proof.
  apply (rooms_with_members_are_listed scenario_A 0). vm_compute. discriminate.
Defined.

(** X19. Whatever happened before, when the handler of the only member of
    a room ends because [receive_bytes] raised, the room's id disappears
    from the listing, and a connection that joins under that id afterwards
    is sent nothing: it gets a new room, not the old state. *)
Theorem last_departure_unlists (inputs : list input) (websocket : conn)
    (rid : string) (room : addr) (e : exn) (now : time) (tx : conn → option exn) :
  let w := (run inputs initial).1 in
  let w' := (step (Receive websocket (Raise e) now tx) w).1 in
  sessions w !! websocket = Some (Receiving rid room) →
  connections (heap (store w) !!! room) = {[websocket]} →
  (∀ n lu, (rid, n, lu) ∉ list_rooms (store w')) ∧
  (∀ ws' now' tx' c, sessions w' !! ws' = None →
     sends_to c (step (Connect ws' rid now' None tx') w').2 = []).
Proof.
  intros w w' Hs Hone.
  assert (Hgone : rooms (store w') !! rid = None).
  { destruct (run_registered inputs initial initial_registered) as [Hreg Hc].
    fold w in Hreg, Hc. destruct (Hc websocket rid room Hs) as [_ Hid].
    destruct (reg_ws_finally websocket rid room (store w) Hreg Hid) as [_ H].
    destruct H as (_ & _ & Hrooms); [set_solver|].
    unfold w'. simpl. rewrite Hs, websocket_sync_resume_raise.
    pose proof (cleanup_is_finally websocket rid room e (store w)) as Hcl.
    destruct (try_except_finally _ _ _ (store w)) as [[r σ3] t3]. simpl in *.
    rewrite <- Hcl in Hrooms. simpl in Hrooms. rewrite Hrooms.
    rewrite decide_True by set_solver. apply lookup_delete_eq. }
  split.
  - intros n lu Hin. unfold list_rooms in Hin.
    apply list_elem_of_fmap in Hin as ([rid' a] & Heq & Hin).
    injection Heq as <- _ _. apply elem_of_map_to_list in Hin. congruence.
  - intros ws' now' tx' c Hnew.
    destruct (connect_trace w' ws' rid now' tx' Hnew) as (R & HR & _ & _ & Hsends).
    rewrite Hgone in HR. apply not_elem_of_dom in HR.
    specialize (Hsends c). rewrite lookup_total_alt, HR in Hsends. simpl in Hsends.
    rewrite decide_False in Hsends by (by intros [_ ?]).
    by apply fmap_nil_inv in Hsends.
Qed.

Lemma last_departure_unlists_witness :
  let w := (run (take 1 scenario_A) initial).1 in
  let w' := (step (Receive 1 (Raise WebSocketDisconnect) 1 healthy) w).1 in
  (∀ n lu, ("doc1", n, lu) ∉ list_rooms (store w')) ∧
  (∀ ws' now' tx' c, sessions w' !! ws' = None →
     sends_to c (step (Connect ws' "doc1" now' None tx') w').2 = []).
Proof.
  apply (last_departure_unlists (take 1 scenario_A) 1 "doc1" 0
           WebSocketDisconnect 1 healthy).
  - vm_compute. reflexivity.
  - vm_compute. reflexivity.
Defined.

(** * More on document persistence *)

Module PersistenceMore.
Import Persistence.





End PersistenceMore.
